(** * BadmintonQueue: the queue generation algorithm

    A shallow embedding of [src/badminton-app/src/utils/queueAlgorithm.js]
    and the properties of it that the specification states, followed by the
    handlers of the dashboard page that call the algorithm and write the rows
    it later reads, and by the per-player game counts of
    [src/badminton-app/src/utils/paymentCalculations.js].

    Modelling conventions.
    - The numbers the algorithm manipulates are integer counters (queue
      counts, [total_games_played], numbers of games) and integer weighted
      sums of them, which JavaScript computes exactly: they are modelled by
      [Z]. The initial [bestScore = Infinity] is modelled by [None].
    - Participant identifiers are only compared with [===] and used as
      property keys of the [queueCount] object, so the development is
      parametric in a countable type [PlayerId] with decidable equality.
    - A field read that yields [undefined] or [null] is modelled by [None];
      an identifier is never [===] to it.
    - [queueCount] is a JavaScript object used as a dictionary: a [gmap].
    - The mutated locals of a loop ([teammates] and [opponents], [score],
      [bestScore] and [bestMatch], [newQueue] and [queueCount]) are threaded
      through a fold over the values the loop visits. *)

From Stdlib Require Import ZArith Lia.
From stdpp Require Import base decidable option list strings gmap.

Local Open Scope Z_scope.

Section QueueAlgorithm.

Context {PlayerId : Type} {PlayerId_eq : EqDecision PlayerId}
  {PlayerId_countable : Countable PlayerId}.

(** ** Data model *)

(** An element of [availablePlayers]: the fields the algorithm reads. *)
Record Player := mkPlayer {
  id : PlayerId;
  total_games_played : Z
}.

(** An element of the returned queue: [{ team1: [..], team2: [..] }]. *)
Record Match := mkMatch {
  team1 : list Player;
  team2 : list Player
}.

(** An element of a list of games as the two history functions receive it.
    [generateQueue] passes them [[...allGames, ...queuedGames, ...newQueue]]:
    rows of the games table, which carry the four [*_id] columns (a column
    may hold [null]), followed by the matches committed so far, which are
    [{team1, team2}] objects and carry none of the four properties. *)
Inductive Game :=
  | Row (t1p1 t1p2 t2p1 t2p2 : option PlayerId)
  | Queued (m : Match).

Definition team1_player1_id (game : Game) : option PlayerId :=
  match game with Row a _ _ _ => a | Queued _ => None end.
Definition team1_player2_id (game : Game) : option PlayerId :=
  match game with Row _ b _ _ => b | Queued _ => None end.
Definition team2_player1_id (game : Game) : option PlayerId :=
  match game with Row _ _ c _ => c | Queued _ => None end.
Definition team2_player2_id (game : Game) : option PlayerId :=
  match game with Row _ _ _ d => d | Queued _ => None end.

(** [field === p] for a field read and an identifier. *)
Definition strictEq (field : option PlayerId) (p : PlayerId) : bool :=
  bool_decide (field = Some p).

(** ** getPlayerPairingHistory (lines 3-24) *)

Record PairingHistory := mkHistory { teammates : Z; opponents : Z }.

Definition inTeam1 (game : Game) (p : PlayerId) : bool :=
  strictEq (team1_player1_id game) p || strictEq (team1_player2_id game) p.
Definition inTeam2 (game : Game) (p : PlayerId) : bool :=
  strictEq (team2_player1_id game) p || strictEq (team2_player2_id game) p.

Definition wereTeammates (p1 p2 : PlayerId) (game : Game) : bool :=
  (inTeam1 game p1 && inTeam1 game p2) || (inTeam2 game p1 && inTeam2 game p2).
Definition wereOpponents (p1 p2 : PlayerId) (game : Game) : bool :=
  (inTeam1 game p1 && inTeam2 game p2) || (inTeam2 game p1 && inTeam1 game p2).

(** The body of the [forEach] callback, acting on the two counters. *)
Definition pairingStep (p1 p2 : PlayerId) (acc : PairingHistory) (game : Game)
  : PairingHistory :=
  if wereTeammates p1 p2 game then
    mkHistory (teammates acc + 1) (opponents acc)
  else if wereOpponents p1 p2 game then
    mkHistory (teammates acc) (opponents acc + 1)
  else acc.

Definition getPlayerPairingHistory (p1 p2 : PlayerId) (games : list Game)
  : PairingHistory :=
  foldl (pairingStep p1 p2) (mkHistory 0 0) games.

(** ** getPlayerInteractionScore (lines 26-40) *)

Definition maxGamesToCheck : Z := 10.

(** [arr.slice(-n)]: the last [n] elements, the whole array when shorter. *)
Definition slice_last {A} (n : nat) (arr : list A) : list A :=
  drop (length arr - n)%nat arr.

(** [arr.forEach((x, idx) => ...)] threading the mutated locals [s]. *)
Fixpoint forEachIdx {A St} (f : St → A → nat → St) (idx : nat) (arr : list A)
  (s : St) : St :=
  match arr with
  | [] => s
  | x :: rest => forEachIdx f (S idx) rest (f s x idx)
  end.

Definition inGame (game : Game) (p : PlayerId) : bool :=
  strictEq (team1_player1_id game) p || strictEq (team1_player2_id game) p ||
  strictEq (team2_player1_id game) p || strictEq (team2_player2_id game) p.

Definition interactionStep (p1 p2 : PlayerId) (len : nat)
  (score : Z) (game : Game) (idx : nat) : Z :=
  let distance := Z.of_nat len - Z.of_nat idx in
  if inGame game p1 && inGame game p2
  then score + (maxGamesToCheck - distance + 1) * 2
  else score.

Definition getPlayerInteractionScore (p1 p2 : PlayerId)
  (recentGames : list Game) : Z :=
  forEachIdx (interactionStep p1 p2 (length recentGames)) 0
    (slice_last (Z.to_nat maxGamesToCheck) recentGames) 0.

(** The recency score as the specification words it: over the last ten
    matches, the match at distance [d] from the end ([d = 1] for the most
    recent) adds [(10 - d + 1) * 2] when both participants appear in it. *)
Fixpoint recencyFromNewest (p1 p2 : PlayerId) (d : Z) (newestFirst : list Game)
  : Z :=
  match newestFirst with
  | [] => 0
  | game :: older =>
      (if inGame game p1 && inGame game p2
       then (maxGamesToCheck - d + 1) * 2 else 0)
      + recencyFromNewest p1 p2 (d + 1) older
  end.

Definition interactionScore_spec (p1 p2 : PlayerId) (matches : list Game) : Z :=
  recencyFromNewest p1 p2 1 (take (Z.to_nat maxGamesToCheck) (reverse matches)).

(** [inGame game p1 && inGame game p2], as a predicate on games. *)
Definition bothInGame (p1 p2 : PlayerId) (game : Game) : Prop :=
  inGame game p1 = true ∧ inGame game p2 = true.

Global Instance bothInGame_dec p1 p2 game : Decision (bothInGame p1 p2 game).
Proof. unfold bothInGame. apply _. Defined.

(** The same sum read oldest first, with every distance shifted by [k]:
    the first game of [window] is at distance [length window + k]. *)
Fixpoint recencyOldestFirst (p1 p2 : PlayerId) (k : Z) (window : list Game)
  : Z :=
  match window with
  | [] => 0
  | game :: newer =>
      (if inGame game p1 && inGame game p2
       then (maxGamesToCheck - (Z.of_nat (length window) + k) + 1) * 2 else 0)
      + recencyOldestFirst p1 p2 k newer
  end.

(** ** generateQueue (lines 42-162) *)

(** [Object.values(obj)]; only [Math.min] consumes it, so the order of
    the values is immaterial. *)
Definition Object_values (obj : gmap PlayerId Z) : list Z :=
  (map_to_list obj).*2.

(** [Math.min(...xs)] and [Math.max(...xs)]. On an empty argument list
    JavaScript answers [Infinity] and [-Infinity]; every call site below has
    a non-empty list (lemmas [Object_values_nonempty], [playerCounts]
    of four players), and the model answers [0] there. *)
Definition Math_min (xs : list Z) : Z :=
  match xs with [] => 0 | x :: rest => foldl Z.min x rest end.
Definition Math_max (xs : list Z) : Z :=
  match xs with [] => 0 | x :: rest => foldl Z.max x rest end.

(** [queueCount[p.id]]. Line 49 gives every available player an entry, so
    the read is always defined where the algorithm performs it (lemma
    [queueLoop_defined]); the model answers [0] for a missing key. *)
Definition countOf (queueCount : gmap PlayerId Z) (p : Player) : Z :=
  default 0 (queueCount !! id p).

(** [queueCount[p.id] === currentMinCount] *)
Definition hasMinCount (queueCount : gmap PlayerId Z) (currentMinCount : Z)
  (p : Player) : Prop :=
  countOf queueCount p = currentMinCount.

Global Instance hasMinCount_dec qc m p : Decision (hasMinCount qc m p).
Proof. unfold hasMinCount. apply _. Defined.

(** [totalScore < bestScore], with [None] for [Infinity]. *)
Definition below (totalScore : Z) (bestScore : option Z) : bool :=
  match bestScore with
  | None => true
  | Some b => bool_decide (totalScore < b)
  end.

(** The mutable locals [bestScore] and [bestMatch] of one round. *)
Definition Best : Type := option Z * option Match.

(** PRIORITY 3 (lines 107-113). *)
Definition teammateRepeatScore (t1a t1b t2a t2b : Player)
  (allGamesIncludingQueue : list Game) : Z :=
  let team1History :=
    getPlayerPairingHistory (id t1a) (id t1b) allGamesIncludingQueue in
  let s := 0 + teammates team1History * 5000 in
  let team2History :=
    getPlayerPairingHistory (id t2a) (id t2b) allGamesIncludingQueue in
  s + teammates team2History * 5000.

(** PRIORITY 4 (lines 118-124). *)
Definition opponentRepeatScore (t1 t2 : list Player)
  (allGamesIncludingQueue : list Game) : Z :=
  foldl (λ s p1,
    foldl (λ s p2,
      let oppHistory :=
        getPlayerPairingHistory (id p1) (id p2) allGamesIncludingQueue in
      s + opponents oppHistory * 3000) s t2) 0 t1.

(** PRIORITY 6 (lines 133-137), for the four players of a match. *)
Definition recentInteractionScore (p0 p1 p2 p3 : Player)
  (allGamesIncludingQueue : list Game) : Z :=
  foldl (λ s '(pa, pb),
    s + getPlayerInteractionScore (id pa) (id pb) allGamesIncludingQueue * 10)
    0 [(p0, p1); (p0, p2); (p0, p3); (p1, p2); (p1, p3); (p2, p3)].

(** [totalScore] of one team split (lines 87-137). *)
Definition totalScoreOf (queueCount : gmap PlayerId Z) (currentMinCount : Z)
  (allGames queuedGames : list Game) (newQueue : list Match)
  (t1a t1b t2a t2b : Player) : Z :=
  let allPlayersInMatch := [t1a; t1b] ++ [t2a; t2b] in
  let totalScore := 0 in
  let playersWithMinInMatch :=
    Z.of_nat (length (filter (hasMinCount queueCount currentMinCount)
                             allPlayersInMatch)) in
  let totalScore := totalScore - playersWithMinInMatch * 1000000 in
  let playerCounts := countOf queueCount <$> allPlayersInMatch in
  let minInGroup := Math_min playerCounts in
  let maxInGroup := Math_max playerCounts in
  let groupGap := maxInGroup - minInGroup in
  let totalScore := totalScore + groupGap * 100000 in
  let totalQueueGames :=
    foldl (λ sum p, sum + countOf queueCount p) 0 allPlayersInMatch in
  let totalScore := totalScore + totalQueueGames * 10000 in
  let allGamesIncludingQueue :=
    allGames ++ queuedGames ++ (Queued <$> newQueue) in
  let totalScore :=
    totalScore + teammateRepeatScore t1a t1b t2a t2b allGamesIncludingQueue in
  let totalScore :=
    totalScore + opponentRepeatScore [t1a; t1b] [t2a; t2b]
                   allGamesIncludingQueue in
  let totalGamesPlayed :=
    foldl (λ sum p, sum + total_games_played p) 0 allPlayersInMatch in
  let totalScore := totalScore + totalGamesPlayed * 100 in
  totalScore + recentInteractionScore t1a t1b t2a t2b allGamesIncludingQueue.

(** The [possibleTeams.forEach] callback (lines 86-146). The two teams of
    every element of [possibleTeams] are two-element array literals. *)
Definition tryTeams (queueCount : gmap PlayerId Z) (currentMinCount : Z)
  (allGames queuedGames : list Game) (newQueue : list Match)
  (best : Best) (teams : Match) : Best :=
  match team1 teams, team2 teams with
  | [t1a; t1b], [t2a; t2b] =>
      let totalScore :=
        totalScoreOf queueCount currentMinCount allGames queuedGames newQueue
          t1a t1b t2a t2b in
      if below totalScore best.1
      then (Some totalScore, Some (mkMatch (team1 teams) (team2 teams)))
      else best
  | _, _ => best
  end.

(** Lines 80-84. *)
Definition possibleTeams (f0 f1 f2 f3 : Player) : list Match :=
  [ mkMatch [f0; f1] [f2; f3];
    mkMatch [f0; f2] [f1; f3];
    mkMatch [f0; f3] [f1; f2] ].

(** The hard pre-filter of lines 72-77: [true] when the group is skipped. *)
Definition skipGroup (queueCount : gmap PlayerId Z) (currentMinCount : Z)
  (playersWithMinCount fourPlayers : list Player) : bool :=
  let minCountPlayersInGroup :=
    length (filter (hasMinCount queueCount currentMinCount) fourPlayers) in
  bool_decide (4 ≤ length playersWithMinCount)%nat
  && bool_decide (minCountPlayersInGroup < 3)%nat.

(** The body of the innermost loop (lines 69-146). *)
Definition tryGroup (queueCount : gmap PlayerId Z) (currentMinCount : Z)
  (playersWithMinCount : list Player)
  (allGames queuedGames : list Game) (newQueue : list Match)
  (best : Best) (f0 f1 f2 f3 : Player) : Best :=
  let fourPlayers := [f0; f1; f2; f3] in
  if skipGroup queueCount currentMinCount playersWithMinCount fourPlayers
  then best
  else foldl (tryTeams queueCount currentMinCount allGames queuedGames newQueue)
         best (possibleTeams f0 f1 f2 f3).

(** [for (let x = lo; x < hi; x++)]: the values [x] takes. *)
Definition range (lo hi : nat) : list nat := seq lo (hi - lo).

(** One round's search (lines 55-150): the four nested index loops. An
    index read [availablePlayers[x]] is always in range there. *)
Definition findBestMatch (availablePlayers : list Player)
  (allGames queuedGames : list Game) (newQueue : list Match)
  (queueCount : gmap PlayerId Z) : option Match :=
  let n := length availablePlayers in
  let counts := Object_values queueCount in
  let currentMinCount := Math_min counts in
  let playersWithMinCount :=
    filter (hasMinCount queueCount currentMinCount) availablePlayers in
  let best : Best :=
    foldl (λ best i,
      foldl (λ best j,
        foldl (λ best k,
          foldl (λ best l,
            match availablePlayers !! i, availablePlayers !! j,
                  availablePlayers !! k, availablePlayers !! l with
            | Some f0, Some f1, Some f2, Some f3 =>
                tryGroup queueCount currentMinCount playersWithMinCount
                  allGames queuedGames newQueue best f0 f1 f2 f3
            | _, _, _, _ => best
            end)
          best (range (k + 1) n))
        best (range (j + 1) (n - 1)))
      best (range (i + 1) (n - 2)))
    (None, None) (range 0 (n - 3)) in
  best.2.

(** [[...bestMatch.team1, ...bestMatch.team2].forEach(p => queueCount[p.id]++)] *)
Definition bumpCounts (queueCount : gmap PlayerId Z) (bestMatch : Match)
  : gmap PlayerId Z :=
  foldl (λ qc p, <[id p := countOf qc p + 1]> qc) queueCount
    (team1 bestMatch ++ team2 bestMatch).

(** The [for (gameNum ...)] loop with its [break], for [rounds] remaining
    iterations; it answers [newQueue] together with the final [queueCount]. *)
Fixpoint queueLoop (rounds : nat) (availablePlayers : list Player)
  (allGames queuedGames : list Game) (newQueue : list Match)
  (queueCount : gmap PlayerId Z) : list Match * gmap PlayerId Z :=
  match rounds with
  | O => (newQueue, queueCount)
  | S rounds' =>
      match findBestMatch availablePlayers allGames queuedGames newQueue
              queueCount with
      | Some bestMatch =>
          queueLoop rounds' availablePlayers allGames queuedGames
            (newQueue ++ [bestMatch]) (bumpCounts queueCount bestMatch)
      | None => (newQueue, queueCount)
      end
  end.

Definition maxQueueGames : nat := 3.

(** [availablePlayers.forEach(p => queueCount[p.id] = 0)] *)
Definition initCounts (availablePlayers : list Player) : gmap PlayerId Z :=
  foldl (λ qc p, <[id p := 0]> qc) ∅ availablePlayers.

(** [generateQueue] with the final [queueCount] beside the returned queue. *)
Definition generateQueue_run (availablePlayers : list Player)
  (allGames queuedGames : list Game) : list Match * gmap PlayerId Z :=
  if bool_decide (length availablePlayers < 4)%nat then ([], ∅)
  else queueLoop maxQueueGames availablePlayers allGames queuedGames []
         (initCounts availablePlayers).

Definition generateQueue (availablePlayers : list Player)
  (allGames queuedGames : list Game) : list Match :=
  (generateQueue_run availablePlayers allGames queuedGames).1.

(** ** The candidates of a round, as a list

    The index quadruples the four loops visit, in the order they visit
    them, the groups they read, and the team splits that reach the scorer. *)

Definition indexQuads (n : nat) : list (nat * nat * nat * nat) :=
  i ← range 0 (n - 3);
  j ← range (i + 1) (n - 2);
  k ← range (j + 1) (n - 1);
  l ← range (k + 1) n;
  [(i, j, k, l)].

(** [f0 f1 f2 f3] are read at increasing indices of [availablePlayers]. *)
Definition IsGroup (availablePlayers : list Player) (f0 f1 f2 f3 : Player)
  : Prop :=
  ∃ i j k l : nat,
    (i < j)%nat ∧ (j < k)%nat ∧ (k < l)%nat ∧
    availablePlayers !! i = Some f0 ∧ availablePlayers !! j = Some f1 ∧
    availablePlayers !! k = Some f2 ∧ availablePlayers !! l = Some f3.

(** The splits of the group at one index quadruple that are scored. *)
Definition candidatesAt (availablePlayers : list Player)
  (queueCount : gmap PlayerId Z) (currentMinCount : Z)
  (playersWithMinCount : list Player) (q : nat * nat * nat * nat)
  : list Match :=
  let '(i, j, k, l) := q in
  match availablePlayers !! i, availablePlayers !! j,
        availablePlayers !! k, availablePlayers !! l with
  | Some f0, Some f1, Some f2, Some f3 =>
      if skipGroup queueCount currentMinCount playersWithMinCount
           [f0; f1; f2; f3]
      then [] else possibleTeams f0 f1 f2 f3
  | _, _, _, _ => []
  end.

Definition candidates (availablePlayers : list Player)
  (queueCount : gmap PlayerId Z) : list Match :=
  let currentMinCount := Math_min (Object_values queueCount) in
  let playersWithMinCount :=
    filter (hasMinCount queueCount currentMinCount) availablePlayers in
  indexQuads (length availablePlayers)
    ≫= candidatesAt availablePlayers queueCount currentMinCount
         playersWithMinCount.

(** The score of a team split, when its two teams have two players each. *)
Definition scoreOf (queueCount : gmap PlayerId Z) (currentMinCount : Z)
  (allGames queuedGames : list Game) (newQueue : list Match) (teams : Match)
  : option Z :=
  match team1 teams, team2 teams with
  | [t1a; t1b], [t2a; t2b] =>
      Some (totalScoreOf queueCount currentMinCount allGames queuedGames
              newQueue t1a t1b t2a t2b)
  | _, _ => None
  end.

(** The two teams of [teams] are two-element arrays. *)
Definition wfTeams (teams : Match) : Prop :=
  ∃ t1a t1b t2a t2b, teams = mkMatch [t1a; t1b] [t2a; t2b].

(** [best] is what the scan holds after the candidates [seen]: nothing when
    there were none, otherwise one of them with a least score. *)
Definition BestOf (score : Match → option Z) (seen : list Match) (best : Best)
  : Prop :=
  match best with
  | (Some s, Some m) =>
      m ∈ seen ∧ score m = Some s ∧
      ∀ c s', c ∈ seen → score c = Some s' → s ≤ s'
  | (None, None) => seen = []
  | _ => False
  end.

(** ** The two parts of the score

    Priorities "super", 1 and 2 read the counters only; priorities 3 to 6
    read the games and the lifetime totals only. *)

Definition usageScore (queueCount : gmap PlayerId Z) (currentMinCount : Z)
  (allPlayersInMatch : list Player) : Z :=
  let playersWithMinInMatch :=
    Z.of_nat (length (filter (hasMinCount queueCount currentMinCount)
                             allPlayersInMatch)) in
  let playerCounts := countOf queueCount <$> allPlayersInMatch in
  - playersWithMinInMatch * 1000000
  + (Math_max playerCounts - Math_min playerCounts) * 100000
  + foldl (λ sum p, sum + countOf queueCount p) 0 allPlayersInMatch * 10000.

Definition historyScore (t1a t1b t2a t2b : Player)
  (allGamesIncludingQueue : list Game) : Z :=
  teammateRepeatScore t1a t1b t2a t2b allGamesIncludingQueue
  + opponentRepeatScore [t1a; t1b] [t2a; t2b] allGamesIncludingQueue
  + foldl (λ sum p, sum + total_games_played p) 0 [t1a; t1b; t2a; t2b] * 100
  + recentInteractionScore t1a t1b t2a t2b allGamesIncludingQueue.

(** The counters are those of the available players, and no two of them
    are more than one apart. *)
Definition Balanced (availablePlayers : list Player)
  (queueCount : gmap PlayerId Z) : Prop :=
  (∀ p, p ∈ availablePlayers → is_Some (queueCount !! id p)) ∧
  (∀ key, is_Some (queueCount !! key) →
          ∃ p, p ∈ availablePlayers ∧ id p = key) ∧
  ∃ lo, ∀ p, p ∈ availablePlayers →
             lo ≤ countOf queueCount p ≤ lo + 1.


(** The values of [newQueue] and [queueCount] at the head of a round. *)
Inductive Reachable (availablePlayers : list Player)
  (allGames queuedGames : list Game) : list Match → gmap PlayerId Z → Prop :=
  | reach_start :
      Reachable availablePlayers allGames queuedGames []
        (initCounts availablePlayers)
  | reach_commit newQueue queueCount bestMatch :
      Reachable availablePlayers allGames queuedGames newQueue queueCount →
      findBestMatch availablePlayers allGames queuedGames newQueue queueCount
        = Some bestMatch →
      Reachable availablePlayers allGames queuedGames
        (newQueue ++ [bestMatch]) (bumpCounts queueCount bestMatch).

(** ** Vocabulary of the specification *)

(** The identifiers a game lists for each team. *)
Definition definedIds (fields : list (option PlayerId)) : list PlayerId :=
  omap (λ field, field) fields.
Definition team1Ids (game : Game) : list PlayerId :=
  definedIds [team1_player1_id game; team1_player2_id game].
Definition team2Ids (game : Game) : list PlayerId :=
  definedIds [team2_player1_id game; team2_player2_id game].

Definition appearsIn (p : PlayerId) (game : Game) : Prop :=
  p ∈ team1Ids game ++ team2Ids game.
Definition onSameTeam (p1 p2 : PlayerId) (game : Game) : Prop :=
  (p1 ∈ team1Ids game ∧ p2 ∈ team1Ids game) ∨
  (p1 ∈ team2Ids game ∧ p2 ∈ team2Ids game).
Definition onOppositeTeams (p1 p2 : PlayerId) (game : Game) : Prop :=
  (p1 ∈ team1Ids game ∧ p2 ∈ team2Ids game) ∨
  (p1 ∈ team2Ids game ∧ p2 ∈ team1Ids game).

(** The data model's invariant of a match record: Team A ∩ Team B = ∅. *)
Definition teamsDisjoint (game : Game) : Prop :=
  Forall (λ p, p ∉ team2Ids game) (team1Ids game).

Global Instance appearsIn_dec p game : Decision (appearsIn p game).
Proof. unfold appearsIn. apply _. Defined.
Global Instance onSameTeam_dec p1 p2 game : Decision (onSameTeam p1 p2 game).
Proof. unfold onSameTeam. apply _. Defined.
Global Instance onOppositeTeams_dec p1 p2 game :
  Decision (onOppositeTeams p1 p2 game).
Proof. unfold onOppositeTeams. apply _. Defined.

(** The number of elements of [l] that satisfy [P]. *)
Definition countIf {A} (P : A → Prop) `{!∀ x, Decision (P x)} (l : list A) : Z :=
  Z.of_nat (length (filter P l)).

End QueueAlgorithm.

Arguments Player : clear implicits.
Arguments Match : clear implicits.
Arguments Game : clear implicits.

(** ** Further vocabulary *)

Section Accounting.

Context {PlayerId : Type} {PlayerId_eq : EqDecision PlayerId}
  {PlayerId_countable : Countable PlayerId}.

(** The number of slots of [bestMatch] that hold a player of id [key]. *)
Definition slotsOf (key : PlayerId) (bestMatch : Match PlayerId) : Z :=
  countIf (λ x : Player PlayerId, id x = key)
    (team1 bestMatch ++ team2 bestMatch).

(** The number of slots of a queue that hold a player of id [key]. *)
Definition appearances (key : PlayerId) (queue : list (Match PlayerId)) : Z :=
  foldr (λ bestMatch total, slotsOf key bestMatch + total) 0 queue.

(** The sum of [f] over a list. *)
Definition sumOver {A} (f : A → Z) (l : list A) : Z :=
  foldr (λ x total, f x + total) 0 l.


(** [best] after the candidates [seen], with the place of the selected one:
    every candidate before it scores strictly more, none after it less. *)
Definition FirstBest (score : Match PlayerId → option Z)
  (seen : list (Match PlayerId)) (best : Best) : Prop :=
  match best with
  | (Some s, Some m) =>
      score m = Some s ∧
      ∃ before after,
        seen = before ++ m :: after ∧
        (∀ c s', c ∈ before → score c = Some s' → s < s') ∧
        (∀ c s', c ∈ after → score c = Some s' → s ≤ s')
  | (None, None) => seen = []
  | _ => False
  end.

(** The player [x] with [extra] more lifetime games, and a match of such
    players. *)
Definition withMoreGames (extra : Z) (x : Player PlayerId) : Player PlayerId :=
  mkPlayer (id x) (total_games_played x + extra).

Definition matchWithMoreGames (extra : Z) (bestMatch : Match PlayerId)
  : Match PlayerId :=
  mkMatch (withMoreGames extra <$> team1 bestMatch)
          (withMoreGames extra <$> team2 bestMatch).

End Accounting.

(** ** The dashboard page ([AdminDashboard]) around the algorithm

    The handlers of the page that compute the rows of the games table:
    [handleGenerateQueue], which calls [generateQueue], and the handlers of
    the custom-match and edit-game dialogs. A handler is modelled up to the
    request it hands to the database client or the [alert] it raises; a
    [TypeError] raised inside a [try] block ends in the [alert] of its
    [catch]. The React state a handler reads is an argument, the state it
    sets is part of the answer, and successive clicks each read the state
    the previous one set. *)

Section AdminDashboard.

Context {PlayerId : Type} {PlayerId_eq : EqDecision PlayerId}
  {PlayerId_countable : Countable PlayerId} {SessionId GameId : Type}.

(** An element of [sessionPlayers]: a row of the users table together
    with the player's status in the session ([{...p, sessionStatus}]). *)
Record SessionPlayer := mkSessionPlayer {
  player : Player PlayerId;
  sessionStatus : string
}.

(** An object handed to [supabase.from('games').insert]. The four id
    properties carry the prefix [new_] here, the names without it being
    those of the reads of a stored game. *)
Record NewGame := mkNewGame {
  session_id : SessionId;
  game_number : Z;
  new_team1_player1_id : PlayerId;
  new_team1_player2_id : PlayerId;
  new_team2_player1_id : PlayerId;
  new_team2_player2_id : PlayerId;
  status : string;
  is_custom : bool
}.

(** The four id columns of an inserted row, as a game read back. *)
Definition asGame (newGame : NewGame) : Game PlayerId :=
  Row (Some (new_team1_player1_id newGame)) (Some (new_team1_player2_id newGame))
      (Some (new_team2_player1_id newGame)) (Some (new_team2_player2_id newGame)).

(** What a handler does. *)
Inductive Outcome :=
  | Returns
  | Alerts (message : string)
  | Inserts (games : list NewGame)
  | Updates (gameId : GameId) (t1p1 t1p2 t2p1 t2p2 : PlayerId).

(** *** handleGenerateQueue *)

(** The callback of [newMatches.map((match, idx) => ...)]; reading [.id] of
    a missing team member raises a [TypeError], modelled by [None]. *)
Definition gameToInsert (session : SessionId) (nextGameNumber : Z)
  (newMatch : Match PlayerId) (idx : nat) : option NewGame :=
  a ← team1 newMatch !! 0%nat;
  b ← team1 newMatch !! 1%nat;
  c ← team2 newMatch !! 0%nat;
  d ← team2 newMatch !! 1%nat;
  Some (mkNewGame session (nextGameNumber + Z.of_nat idx)
          (id a) (id b) (id c) (id d) "queued" false).

Fixpoint gamesToInsert (session : SessionId) (nextGameNumber : Z) (idx : nat)
  (newMatches : list (Match PlayerId)) : option (list NewGame) :=
  match newMatches with
  | [] => Some []
  | newMatch :: rest =>
      newGame ← gameToInsert session nextGameNumber newMatch idx;
      newGames ← gamesToInsert session nextGameNumber (S idx) rest;
      Some (newGame :: newGames)
  end.

Definition isActive (x : SessionPlayer) : Prop := sessionStatus x = "active".

Global Instance isActive_dec x : Decision (isActive x).
Proof. unfold isActive. apply _. Defined.

Definition handleGenerateQueue (currentSession : option SessionId)
  (sessionPlayers : list SessionPlayer)
  (completedGames currentGames queuedGames : list (Game PlayerId)) : Outcome :=
  match currentSession with
  | None => Returns
  | Some session =>
      let activePlayers := filter isActive sessionPlayers in
      if bool_decide (length activePlayers < 4)%nat
      then Alerts "Need at least 4 active players to generate queue!"
      else
        let allGames := completedGames ++ currentGames in
        let newMatches :=
          generateQueue (player <$> activePlayers) allGames queuedGames in
        if bool_decide (length newMatches = 0%nat)
        then Alerts "Could not generate queue. Need more players or check player availability."
        else
          let nextGameNumber :=
            Z.of_nat (length completedGames) + Z.of_nat (length currentGames)
            + Z.of_nat (length queuedGames) + 1 in
          match gamesToInsert session nextGameNumber 0 newMatches with
          | Some games => Inserts games
          | None => Alerts "Failed to generate queue"
          end
  end.

(** *** The custom-match and edit-game dialogs *)

(** [team.some(p => p.id === playerId)] *)
Definition someWithId (playerId : PlayerId) (team : list SessionPlayer) : bool :=
  existsb (λ x, bool_decide (id (player x) = playerId)) team.

(** [team.filter(p => p.id !== playerId)] *)
Definition withoutId (playerId : PlayerId) (team : list SessionPlayer)
  : list SessionPlayer :=
  filter (λ x, id (player x) ≠ playerId) team.

(** [sessionPlayers.find(p => p.id === playerId)] *)
Definition findById (playerId : PlayerId) (sessionPlayers : list SessionPlayer)
  : option SessionPlayer :=
  List.find (λ x, bool_decide (id (player x) = playerId)) sessionPlayers.

(** The two state variables of a dialog: team 1 and team 2. *)
Definition Teams : Type := list SessionPlayer * list SessionPlayer.

Definition togglePlayerInCustomTeam (sessionPlayers : list SessionPlayer)
  (playerId : PlayerId) (team : Z) (customTeams : Teams) : Teams :=
  let '(customTeam1, customTeam2) := customTeams in
  if bool_decide (team = 1) then
    if someWithId playerId customTeam1 then
      (withoutId playerId customTeam1, customTeam2)
    else if bool_decide (length customTeam1 < 2)%nat
            && negb (someWithId playerId customTeam2) then
      match findById playerId sessionPlayers with
      | Some found => (customTeam1 ++ [found], customTeam2)
      | None => (customTeam1, customTeam2)
      end
    else (customTeam1, customTeam2)
  else
    if someWithId playerId customTeam2 then
      (customTeam1, withoutId playerId customTeam2)
    else if bool_decide (length customTeam2 < 2)%nat
            && negb (someWithId playerId customTeam1) then
      match findById playerId sessionPlayers with
      | Some found => (customTeam1, customTeam2 ++ [found])
      | None => (customTeam1, customTeam2)
      end
    else (customTeam1, customTeam2).

Definition insertCustomMatch (currentSession : option SessionId)
  (customTeams : Teams)
  (completedGames currentGames queuedGames : list (Game PlayerId)) : Outcome :=
  let '(customTeam1, customTeam2) := customTeams in
  if bool_decide (length customTeam1 ≠ 2%nat)
     || bool_decide (length customTeam2 ≠ 2%nat)
  then Alerts "Please select 2 players for each team"
  else
    let nextGameNumber :=
      Z.of_nat (length completedGames) + Z.of_nat (length currentGames)
      + Z.of_nat (length queuedGames) + 1 in
    let customGame :=
      session ← currentSession;
      a ← customTeam1 !! 0%nat;
      b ← customTeam1 !! 1%nat;
      c ← customTeam2 !! 0%nat;
      d ← customTeam2 !! 1%nat;
      Some (mkNewGame session nextGameNumber
              (id (player a)) (id (player b)) (id (player c)) (id (player d))
              "queued" true) in
    match customGame with
    | Some newGame => Inserts [newGame]
    | None => Alerts "Failed to insert custom match"
    end.

(** [sessionPlayers.find(p => p.id === field)] for a field read of a game:
    no player's id is [===] to a missing field. *)
Definition findByField (field : option PlayerId)
  (sessionPlayers : list SessionPlayer) : option SessionPlayer :=
  playerId ← field; findById playerId sessionPlayers.

(** [[x, y].filter(Boolean)] for the answers of two [find]s. *)
Definition filter_Boolean (found : list (option SessionPlayer))
  : list SessionPlayer :=
  omap (λ x, x) found.

(** The state [handleEditGame] sets: [editTeam1] and [editTeam2]. *)
Definition handleEditGame (sessionPlayers : list SessionPlayer)
  (game : Game PlayerId) : Teams :=
  let team1Player1 := findByField (team1_player1_id game) sessionPlayers in
  let team1Player2 := findByField (team1_player2_id game) sessionPlayers in
  let team2Player1 := findByField (team2_player1_id game) sessionPlayers in
  let team2Player2 := findByField (team2_player2_id game) sessionPlayers in
  (filter_Boolean [team1Player1; team1Player2],
   filter_Boolean [team2Player1; team2Player2]).

Definition togglePlayerInEditTeam (sessionPlayers : list SessionPlayer)
  (playerId : PlayerId) (team : Z) (editTeams : Teams) : Teams :=
  let '(editTeam1, editTeam2) := editTeams in
  if bool_decide (team = 1) then
    if someWithId playerId editTeam1 then
      (withoutId playerId editTeam1, editTeam2)
    else if bool_decide (length editTeam1 < 2)%nat
            && negb (someWithId playerId editTeam2) then
      match findById playerId sessionPlayers with
      | Some found => (editTeam1 ++ [found], editTeam2)
      | None => (editTeam1, editTeam2)
      end
    else (editTeam1, editTeam2)
  else
    if someWithId playerId editTeam2 then
      (editTeam1, withoutId playerId editTeam2)
    else if bool_decide (length editTeam2 < 2)%nat
            && negb (someWithId playerId editTeam1) then
      match findById playerId sessionPlayers with
      | Some found => (editTeam1, editTeam2 ++ [found])
      | None => (editTeam1, editTeam2)
      end
    else (editTeam1, editTeam2).

(** [editingGame] is [null] or a stored game, of which only [id] is read. *)
Definition saveEditedGame (editingGame : option GameId) (editTeams : Teams)
  : Outcome :=
  let '(editTeam1, editTeam2) := editTeams in
  if bool_decide (length editTeam1 ≠ 2%nat)
     || bool_decide (length editTeam2 ≠ 2%nat)
  then Alerts "Please select 2 players for each team"
  else
    let request :=
      a ← editTeam1 !! 0%nat;
      b ← editTeam1 !! 1%nat;
      c ← editTeam2 !! 0%nat;
      d ← editTeam2 !! 1%nat;
      gameId ← editingGame;
      Some (Updates gameId (id (player a)) (id (player b))
              (id (player c)) (id (player d))) in
    match request with
    | Some update => update
    | None => Alerts "Failed to update game"
    end.

(** A click in a dialog: the player's id and the team of the button. *)
Definition Click : Type := PlayerId * Z.

(** The state of the custom-match dialog after a series of clicks, from
    the empty teams it opens with. *)
Definition customTeamsAfter (sessionPlayers : list SessionPlayer)
  (clicks : list Click) : Teams :=
  foldl (λ customTeams '(playerId, team),
           togglePlayerInCustomTeam sessionPlayers playerId team customTeams)
    ([], []) clicks.

(** The state of the edit-game dialog after [handleEditGame] and a series
    of clicks. *)
Definition editTeamsAfter (sessionPlayers : list SessionPlayer)
  (game : Game PlayerId) (clicks : list Click) : Teams :=
  foldl (λ editTeams '(playerId, team),
           togglePlayerInEditTeam sessionPlayers playerId team editTeams)
    (handleEditGame sessionPlayers game) clicks.

(** The ids of the players of a team. *)
Definition idsOf (team : list SessionPlayer) : list PlayerId :=
  (λ x, id (player x)) <$> team.

(** Two teams of at most two players each, no id twice. *)
Definition TeamsOk (teams : Teams) : Prop :=
  (length teams.1 ≤ 2)%nat ∧ (length teams.2 ≤ 2)%nat ∧
  NoDup (idsOf teams.1 ++ idsOf teams.2).

(** *** Games per player *)

(** [getPlayerSessionGames] (the page), over the three lists of games of
    the session. *)
Definition getPlayerSessionGames
  (completedGames currentGames queuedGames : list (Game PlayerId))
  (playerId : PlayerId) : Z :=
  let allSessionGames := completedGames ++ currentGames ++ queuedGames in
  Z.of_nat (length (filter (λ game,
    strictEq (team1_player1_id game) playerId
    || strictEq (team1_player2_id game) playerId
    || strictEq (team2_player1_id game) playerId
    || strictEq (team2_player2_id game) playerId = true) allSessionGames)).

End AdminDashboard.

Arguments SessionPlayer : clear implicits.
Arguments NewGame : clear implicits.
Arguments Outcome : clear implicits.
Arguments Teams : clear implicits.
Arguments Click : clear implicits.

(** ** Games per player ([paymentCalculations.js]) *)

Section PaymentCalculations.

Context {PlayerId : Type} {PlayerId_eq : EqDecision PlayerId}
  {PlayerId_countable : Countable PlayerId}.

(** [getPlayerIdsFromGame] (lines 50-57): the four id columns without the
    ones that hold [null] or [undefined]. *)
Definition getPlayerIdsFromGame (game : Game PlayerId) : list PlayerId :=
  omap (λ field, field)
    [team1_player1_id game; team1_player2_id game;
     team2_player1_id game; team2_player2_id game].

(** [getPlayerGameCounts] (lines 64-75). [playerGames[playerId] || 0] is
    [0] for a key the object does not have. *)
Definition getPlayerGameCounts (games : list (Game PlayerId))
  : gmap PlayerId Z :=
  foldl (λ playerGames game,
           let playerIds := getPlayerIdsFromGame game in
           foldl (λ playerGames playerId,
                    <[playerId := default 0 (playerGames !! playerId) + 1]>
                      playerGames)
             playerGames playerIds)
    ∅ games.

End PaymentCalculations.

(** ** Concrete inputs *)

Definition players3 : list (Player Z) :=
  [mkPlayer 1 0; mkPlayer 2 0; mkPlayer 3 0].

Definition players4 : list (Player Z) :=
  [mkPlayer 1 0; mkPlayer 2 0; mkPlayer 3 0; mkPlayer 4 0].

(** Five players with close lifetime totals. *)
Definition players5 : list (Player Z) :=
  [mkPlayer 1 12; mkPlayer 2 7; mkPlayer 3 30; mkPlayer 4 0; mkPlayer 5 3].


Definition row (a b c d : Z) : Game Z := Row (Some a) (Some b) (Some c) (Some d).

(** Players 1 and 2 as teammates, as opponents, both absent, one absent. *)
Definition games4 : list (Game Z) :=
  [row 1 2 3 4; row 1 3 2 4; row 5 6 7 8; row 1 5 6 7].

(** Eleven games; players 1 and 2 meet in the most recent one only. *)
Definition games11 : list (Game Z) :=
  replicate 10 (row 3 4 5 6) ++ [row 1 2 3 4].

(** Twenty-one games; players 1 and 2 meet in the most recent one only. *)
Definition games21 : list (Game Z) :=
  replicate 20 (row 3 4 5 6) ++ [row 1 2 3 4].

(** The first split of [players4]. *)
Definition match12_34 : Match Z :=
  mkMatch [mkPlayer 1 0; mkPlayer 2 0] [mkPlayer 3 0; mkPlayer 4 0].

(** The match the first round selects for [players5] after [games4]. *)
Definition match14_25 : Match Z :=
  mkMatch [mkPlayer 1 12; mkPlayer 4 0] [mkPlayer 2 7; mkPlayer 5 3].

(** Six session players: those of [players5], all active, and a player who
    has left the session. *)
Definition sessionPlayers6 : list (SessionPlayer Z) :=
  [mkSessionPlayer (mkPlayer 1 12) "active";
   mkSessionPlayer (mkPlayer 2 7) "active";
   mkSessionPlayer (mkPlayer 3 30) "active";
   mkSessionPlayer (mkPlayer 6 1) "left";
   mkSessionPlayer (mkPlayer 4 0) "active";
   mkSessionPlayer (mkPlayer 5 3) "active"].

(** The rows [handleGenerateQueue] inserts for session 7, the players
    [sessionPlayers6] and the completed games [games4]. *)
Definition inserted6 : list (NewGame Z Z) :=
  [mkNewGame 7 5 1 4 2 5 "queued" false;
   mkNewGame 7 6 2 3 4 5 "queued" false;
   mkNewGame 7 7 1 4 3 5 "queued" false].

(** In the edit dialog: take player 1 out of team 1, put player 5 in. *)
Definition clicks_swap : list (Click Z) := [(1, 1); (5, 1)].

(** Settle a decidable closed proposition by evaluating its decision. *)
Ltac by_evaluation :=
  match goal with
  | |- ?P => apply (bool_decide_unpack P); vm_compute; exact I
  end.

(** ** Properties *)

Section Properties.

Context {PlayerId : Type} {PlayerId_eq : EqDecision PlayerId}
  {PlayerId_countable : Countable PlayerId}.

Implicit Types (p : PlayerId) (game : Game PlayerId) (games : list (Game PlayerId)).

(** *** Pairing history *)

Lemma strictEq_true (field : option PlayerId) p :
  strictEq field p = true ↔ field = Some p.
Proof. unfold strictEq. apply bool_decide_eq_true. Qed.

Lemma inTeam1_spec game p : inTeam1 game p = true ↔ p ∈ team1Ids game.
Proof.
  unfold inTeam1, team1Ids, definedIds.
  rewrite orb_true_iff, !strictEq_true.
  destruct (team1_player1_id game), (team1_player2_id game); simpl;
    rewrite ?elem_of_cons, ?elem_of_nil; intuition congruence.
Qed.

Lemma inTeam2_spec game p : inTeam2 game p = true ↔ p ∈ team2Ids game.
Proof.
  unfold inTeam2, team2Ids, definedIds.
  rewrite orb_true_iff, !strictEq_true.
  destruct (team2_player1_id game), (team2_player2_id game); simpl;
    rewrite ?elem_of_cons, ?elem_of_nil; intuition congruence.
Qed.

Lemma wereTeammates_spec p1 p2 game :
  wereTeammates p1 p2 game = true ↔ onSameTeam p1 p2 game.
Proof.
  unfold wereTeammates, onSameTeam.
  rewrite orb_true_iff, !andb_true_iff, !inTeam1_spec, !inTeam2_spec. tauto.
Qed.

Lemma wereOpponents_spec p1 p2 game :
  wereOpponents p1 p2 game = true ↔ onOppositeTeams p1 p2 game.
Proof.
  unfold wereOpponents, onOppositeTeams.
  rewrite orb_true_iff, !andb_true_iff, !inTeam1_spec, !inTeam2_spec. tauto.
Qed.

Lemma countIf_cons {A} (P : A → Prop) `{!∀ x, Decision (P x)} x (l : list A) :
  countIf P (x :: l) = (if decide (P x) then 1 else 0) + countIf P l.
Proof.
  unfold countIf. rewrite filter_cons.
  destruct (decide (P x)); simpl length; lia.
Qed.

(** What one game adds to the two counters. *)
Lemma pairingStep_cases p1 p2 acc game :
  pairingStep p1 p2 acc game =
    if decide (onSameTeam p1 p2 game)
    then mkHistory (teammates acc + 1) (opponents acc)
    else if decide (onOppositeTeams p1 p2 game)
         then mkHistory (teammates acc) (opponents acc + 1)
         else acc.
Proof.
  unfold pairingStep.
  destruct (decide (onSameTeam p1 p2 game)) as [Hs|Hs].
  - apply wereTeammates_spec in Hs. by rewrite Hs.
  - destruct (wereTeammates p1 p2 game) eqn:Et.
    { apply wereTeammates_spec in Et. contradiction. }
    destruct (decide (onOppositeTeams p1 p2 game)) as [Ho|Ho].
    + apply wereOpponents_spec in Ho. by rewrite Ho.
    + destruct (wereOpponents p1 p2 game) eqn:Eo; [|done].
      apply wereOpponents_spec in Eo. contradiction.
Qed.

(** The loop of [getPlayerPairingHistory] from arbitrary counter values. *)
Lemma pairing_foldl p1 p2 games acc :
  foldl (pairingStep p1 p2) acc games =
    mkHistory
      (teammates acc + countIf (onSameTeam p1 p2) games)
      (opponents acc +
         countIf (λ game, onOppositeTeams p1 p2 game ∧ ¬ onSameTeam p1 p2 game)
           games).
Proof.
  revert acc. induction games as [|game games IH]; intros acc; simpl.
  - unfold countIf. simpl. destruct acc. simpl. f_equal; lia.
  - rewrite IH, pairingStep_cases, !countIf_cons.
    destruct (decide (onSameTeam p1 p2 game)) as [Hs|Hs].
    + rewrite decide_False by tauto. simpl. f_equal; lia.
    + destruct (decide (onOppositeTeams p1 p2 game)) as [Ho|Ho].
      * rewrite decide_True by tauto. simpl. f_equal; lia.
      * rewrite decide_False by tauto. simpl. f_equal; lia.
Qed.

Lemma countIf_ext {A} (P Q : A → Prop) `{!∀ x, Decision (P x)}
  `{!∀ x, Decision (Q x)} (l : list A) :
  Forall (λ x, P x ↔ Q x) l → countIf P l = countIf Q l.
Proof.
  induction 1 as [|x l Hx _ IH]; [done|].
  rewrite !countIf_cons, IH.
  destruct (decide (P x)), (decide (Q x)); tauto || lia.
Qed.

Lemma disjoint_not_both p1 p2 game :
  teamsDisjoint game → onOppositeTeams p1 p2 game → ¬ onSameTeam p1 p2 game.
Proof.
  unfold teamsDisjoint. rewrite Forall_forall.
  intros Hd [[H1 H2]|[H1 H2]] [[H3 H4]|[H3 H4]].
  - by apply (Hd p2).
  - by apply (Hd p1).
  - by apply (Hd p1).
  - by apply (Hd p2).
Qed.

Lemma absent_not_paired p1 p2 game :
  ¬ appearsIn p1 game ∨ ¬ appearsIn p2 game →
  ¬ onSameTeam p1 p2 game ∧ ¬ onOppositeTeams p1 p2 game.
Proof.
  unfold appearsIn, onSameTeam, onOppositeTeams.
  setoid_rewrite elem_of_app. tauto.
Qed.

(** C6. For distinct participants [p1 ≠ p2] and a list of games,
    [getPlayerPairingHistory] answers in [teammates] the number of games in
    which both appear on the same team and in [opponents] the number of games
    in which they appear on opposite teams and not also on the same team,
    which, for match records (whose two teams are disjoint), is the number of
    games in which they appear on opposite teams. A single game adds one to
    at most one of the two counters, and a game in which either participant
    is absent adds to neither. The function is pure: it only reads [games]. *)
Theorem pairing_history_counts p1 p2 games :
  p1 ≠ p2 →
  let history := getPlayerPairingHistory p1 p2 games in
  teammates history = countIf (onSameTeam p1 p2) games ∧
  opponents history =
    countIf (λ game, onOppositeTeams p1 p2 game ∧ ¬ onSameTeam p1 p2 game)
      games ∧
  (Forall teamsDisjoint games →
   opponents history = countIf (onOppositeTeams p1 p2) games) ∧
  (∀ acc game,
     pairingStep p1 p2 acc game = acc ∨
     pairingStep p1 p2 acc game
       = mkHistory (teammates acc + 1) (opponents acc) ∨
     pairingStep p1 p2 acc game
       = mkHistory (teammates acc) (opponents acc + 1)) ∧
  (∀ acc game,
     ¬ appearsIn p1 game ∨ ¬ appearsIn p2 game →
     pairingStep p1 p2 acc game = acc).
Proof.
  intros _ history. subst history. unfold getPlayerPairingHistory.
  rewrite pairing_foldl. simpl.
  split; [lia|]. split; [lia|]. split; [|split].
  - intros Hwf. f_equal.
    apply countIf_ext. eapply Forall_impl; [exact Hwf|].
    intros game Hd. split; [tauto|].
    intros Ho. split; [done|]. by apply disjoint_not_both.
  - intros acc game. rewrite pairingStep_cases.
    destruct (decide _); [tauto|]. destruct (decide _); tauto.
  - intros acc game Habs. rewrite pairingStep_cases.
    destruct (absent_not_paired _ _ _ Habs) as [Hs Ho].
    by rewrite !decide_False.
Qed.

(** With the same participant twice, being "on the same team" is appearing
    in the game, and "opposite teams" would need both teams to list them. *)
Lemma onSameTeam_self p game : onSameTeam p p game ↔ appearsIn p game.
Proof.
  unfold onSameTeam, appearsIn. rewrite elem_of_app. tauto.
Qed.

(** C7 (as amended). [getPlayerPairingHistory p p games] answers
    [opponents = 0], and [teammates] is the number of games in which [p]
    appears: the counts are not always zero. *)
Theorem pairing_history_self p games :
  teammates (getPlayerPairingHistory p p games) = countIf (appearsIn p) games ∧
  opponents (getPlayerPairingHistory p p games) = 0.
Proof.
  unfold getPlayerPairingHistory. rewrite pairing_foldl. simpl. split.
  - apply countIf_ext, Forall_forall. intros game _. apply onSameTeam_self.
  - assert (Hz : countIf (λ game, onOppositeTeams p p game ∧
                                  ¬ onSameTeam p p game) games = 0);
      [|by rewrite Hz].
    induction games as [|game games IH]; [done|].
    rewrite countIf_cons, IH, decide_False; [done|].
    unfold onOppositeTeams, onSameTeam. tauto.
Qed.

(** *** Recency interaction score *)

Lemma both_decide p1 p2 game :
  inGame game p1 && inGame game p2 = bool_decide (bothInGame p1 p2 game).
Proof.
  destruct (decide (bothInGame p1 p2 game)) as [[H1 H2]|Hn].
  - rewrite bool_decide_eq_true_2 by (by split). by rewrite H1, H2.
  - rewrite bool_decide_eq_false_2 by done.
    apply not_true_is_false. intros Hb. apply Hn.
    by apply andb_true_iff in Hb.
Qed.

(** The loop of [getPlayerInteractionScore]: when it stands at index [idx]
    with [window] left, the code's [distance] of the first game left is
    [length window + k] for [k = len - idx - length window]. *)
Lemma forEachIdx_interaction p1 p2 len window idx score k :
  Z.of_nat len - Z.of_nat idx = Z.of_nat (length window) + k →
  forEachIdx (interactionStep p1 p2 len) idx window score
  = score + recencyOldestFirst p1 p2 k window.
Proof.
  revert idx score. induction window as [|game newer IH]; intros idx score Hk.
  - simpl. lia.
  - cbn [forEachIdx recencyOldestFirst]. rewrite IH.
    + unfold interactionStep. rewrite Hk.
      destruct (inGame game p1 && inGame game p2); lia.
    + cbn [length] in Hk. lia.
Qed.

Lemma recencyFromNewest_snoc p1 p2 d newestFirst game :
  recencyFromNewest p1 p2 d (newestFirst ++ [game])
  = recencyFromNewest p1 p2 d newestFirst
    + (if inGame game p1 && inGame game p2
       then (maxGamesToCheck - (d + Z.of_nat (length newestFirst)) + 1) * 2
       else 0).
Proof.
  revert d. induction newestFirst as [|g older IH]; intros d.
  - simpl. destruct (inGame game p1 && inGame game p2); lia.
  - cbn [app recencyFromNewest length]. rewrite IH.
    replace (d + 1 + Z.of_nat (length older))
      with (d + Z.of_nat (S (length older))) by lia.
    destruct (inGame game p1 && inGame game p2); lia.
Qed.

Lemma recency_reverse p1 p2 window :
  recencyFromNewest p1 p2 1 (reverse window)
  = recencyOldestFirst p1 p2 0 window.
Proof.
  induction window as [|game newer IH]; [done|].
  rewrite reverse_cons, recencyFromNewest_snoc, IH, length_reverse.
  cbn [recencyOldestFirst length].
  destruct (inGame game p1 && inGame game p2); lia.
Qed.

Lemma recency_shift p1 p2 k window :
  recencyOldestFirst p1 p2 k window
  = recencyOldestFirst p1 p2 0 window
    - 2 * k * countIf (bothInGame p1 p2) window.
Proof.
  induction window as [|game newer IH]; [unfold countIf; simpl; lia|].
  cbn [recencyOldestFirst]. rewrite IH, countIf_cons, both_decide.
  destruct (decide (bothInGame p1 p2 game)) as [Hb|Hb].
  - rewrite bool_decide_eq_true_2 by done. lia.
  - rewrite bool_decide_eq_false_2 by done. lia.
Qed.

(** What the code computes against what the specification words: every
    game of the window is taken [length recentGames - 10] further from the
    end than it is, once the list is longer than the window. *)
Lemma interaction_score_shifted p1 p2 (recentGames : list (Game PlayerId)) :
  getPlayerInteractionScore p1 p2 recentGames
  = interactionScore_spec p1 p2 recentGames
    - 2 * Z.of_nat (length recentGames - 10)
      * countIf (bothInGame p1 p2) (slice_last 10 recentGames).
Proof.
  unfold getPlayerInteractionScore, interactionScore_spec.
  change (Z.to_nat maxGamesToCheck) with 10%nat.
  rewrite take_reverse, recency_reverse.
  fold (slice_last 10 recentGames).
  rewrite (forEachIdx_interaction _ _ _ _ _ _
             (Z.of_nat (length recentGames - 10))).
  - rewrite recency_shift. lia.
  - unfold slice_last. rewrite length_drop. lia.
Qed.

(** On a list of at most ten games the code is the specification's sum. *)
Lemma interaction_score_short p1 p2 (recentGames : list (Game PlayerId)) :
  (length recentGames ≤ 10)%nat →
  getPlayerInteractionScore p1 p2 recentGames
  = interactionScore_spec p1 p2 recentGames.
Proof.
  intros Hlen. rewrite interaction_score_shifted.
  replace (length recentGames - 10)%nat with 0%nat by lia. lia.
Qed.

(** *** Matches committed in the same invocation *)

Lemma pairingStep_Queued p1 p2 acc (m : Match PlayerId) :
  pairingStep p1 p2 acc (Queued m) = acc.
Proof. reflexivity. Qed.

Lemma pairing_ignores_queued p1 p2 games (newQueue : list (Match PlayerId)) :
  getPlayerPairingHistory p1 p2 (games ++ (Queued <$> newQueue))
  = getPlayerPairingHistory p1 p2 games.
Proof.
  unfold getPlayerPairingHistory. rewrite foldl_app.
  generalize (foldl (pairingStep p1 p2) (mkHistory 0 0) games).
  induction newQueue as [|m newQueue IH]; intros acc; [done|].
  simpl. rewrite pairingStep_Queued. apply IH.
Qed.

Lemma teammateRepeatScore_ignores_queued (t1a t1b t2a t2b : Player PlayerId)
  games (newQueue : list (Match PlayerId)) :
  teammateRepeatScore t1a t1b t2a t2b (games ++ (Queued <$> newQueue))
  = teammateRepeatScore t1a t1b t2a t2b games.
Proof.
  unfold teammateRepeatScore. by rewrite !pairing_ignores_queued.
Qed.

Lemma opponentRepeatScore_ignores_queued (t1 t2 : list (Player PlayerId))
  games (newQueue : list (Match PlayerId)) :
  opponentRepeatScore t1 t2 (games ++ (Queued <$> newQueue))
  = opponentRepeatScore t1 t2 games.
Proof.
  unfold opponentRepeatScore. generalize 0.
  induction t1 as [|p1 t1 IH1]; intros s; [done|].
  cbn [foldl]. rewrite IH1. f_equal.
  clear IH1. revert s. induction t2 as [|p2 t2 IH2]; intros s; [done|].
  cbn [foldl]. by rewrite IH2, pairing_ignores_queued.
Qed.

(** *** One round: the loops as a fold over the list of candidates *)

Lemma foldl_bind {A B C} (f : A → C → A) (g : B → list C) (l : list B) a :
  foldl f a (l ≫= g) = foldl (λ a x, foldl f a (g x)) a l.
Proof.
  revert a. induction l as [|x l IH]; intros a; [done|].
  csimpl. by rewrite foldl_app, IH.
Qed.

Lemma foldl_ext_in {A B} (f g : A → B → A) (l : list B) a :
  (∀ a x, f a x = g a x) → foldl f a l = foldl g a l.
Proof.
  intros Hfg. revert a. induction l as [|x l IH]; intros a; [done|].
  simpl. by rewrite Hfg, IH.
Qed.

Lemma tryGroup_candidatesAt (availablePlayers : list (Player PlayerId))
  qc cmin pm allGames queuedGames newQueue best i j k l :
  match availablePlayers !! i, availablePlayers !! j,
        availablePlayers !! k, availablePlayers !! l with
  | Some f0, Some f1, Some f2, Some f3 =>
      tryGroup qc cmin pm allGames queuedGames newQueue best f0 f1 f2 f3
  | _, _, _, _ => best
  end
  = foldl (tryTeams qc cmin allGames queuedGames newQueue) best
      (candidatesAt availablePlayers qc cmin pm (i, j, k, l)).
Proof.
  unfold candidatesAt, tryGroup.
  destruct (availablePlayers !! i) as [f0|]; [|done].
  destruct (availablePlayers !! j) as [f1|]; [|done].
  destruct (availablePlayers !! k) as [f2|]; [|done].
  destruct (availablePlayers !! l) as [f3|]; [|done].
  by destruct (skipGroup qc cmin pm [f0; f1; f2; f3]).
Qed.

Lemma findBestMatch_fold (availablePlayers : list (Player PlayerId))
  allGames queuedGames newQueue qc :
  findBestMatch availablePlayers allGames queuedGames newQueue qc
  = (foldl (tryTeams qc (Math_min (Object_values qc)) allGames queuedGames
              newQueue)
       (None, None) (candidates availablePlayers qc)).2.
Proof.
  unfold findBestMatch, candidates. f_equal.
  rewrite foldl_bind. unfold indexQuads.
  rewrite foldl_bind. apply foldl_ext_in. intros b1 i.
  rewrite foldl_bind. apply foldl_ext_in. intros b2 j.
  rewrite foldl_bind. apply foldl_ext_in. intros b3 k.
  rewrite foldl_bind. apply foldl_ext_in. intros b4 l.
  by rewrite tryGroup_candidatesAt.
Qed.

Lemma argmin_step qc cmin allGames queuedGames newQueue
  (seen : list (Match PlayerId)) best teams :
  wfTeams teams →
  BestOf (scoreOf qc cmin allGames queuedGames newQueue) seen best →
  BestOf (scoreOf qc cmin allGames queuedGames newQueue) (seen ++ [teams])
    (tryTeams qc cmin allGames queuedGames newQueue best teams).
Proof.
  intros (t1a & t1b & t2a & t2b & ->) Hbest.
  unfold tryTeams. cbn [team1 team2].
  set (total := totalScoreOf qc cmin allGames queuedGames newQueue
                  t1a t1b t2a t2b).
  destruct best as [[s|] [m|]]; cbn [BestOf fst below] in *; try done.
  - destruct Hbest as (Hin & Hs & Hmin).
    destruct (bool_decide (total < s)) eqn:Hlt.
    + apply bool_decide_eq_true in Hlt. split; [|split].
      * apply elem_of_app. right. by apply list_elem_of_singleton.
      * done.
      * intros c s' [Hc|Hc]%elem_of_app Hsc.
        -- specialize (Hmin c s' Hc Hsc). lia.
        -- apply list_elem_of_singleton in Hc. subst c.
           cbn in Hsc. fold total in Hsc. injection Hsc as <-. lia.
    + apply bool_decide_eq_false in Hlt. split; [|split].
      * apply elem_of_app. by left.
      * done.
      * intros c s' [Hc|Hc]%elem_of_app Hsc.
        -- by apply (Hmin c).
        -- apply list_elem_of_singleton in Hc. subst c.
           cbn in Hsc. fold total in Hsc. injection Hsc as <-. lia.
  - subst seen. split; [|split].
    + by apply list_elem_of_singleton.
    + done.
    + intros c s' Hc%list_elem_of_singleton Hsc. subst c.
      cbn in Hsc. fold total in Hsc. injection Hsc as <-. lia.
Qed.

Lemma argmin_fold qc cmin allGames queuedGames newQueue
  (cands seen : list (Match PlayerId)) best :
  Forall wfTeams cands →
  BestOf (scoreOf qc cmin allGames queuedGames newQueue) seen best →
  BestOf (scoreOf qc cmin allGames queuedGames newQueue) (seen ++ cands)
    (foldl (tryTeams qc cmin allGames queuedGames newQueue) best cands).
Proof.
  intros Hwf. revert seen best.
  induction Hwf as [|teams cands Hteams _ IH]; intros seen best Hbest.
  - by rewrite app_nil_r.
  - cbn [foldl]. rewrite cons_middle, app_assoc.
    apply IH. by apply argmin_step.
Qed.

Lemma indexQuads_elem n i j k l :
  (i, j, k, l) ∈ indexQuads n ↔ (i < j ∧ j < k ∧ k < l ∧ l < n)%nat.
Proof.
  unfold indexQuads, range. split.
  - intros (i' & (j' & (k' & (l' & Hq & Hl)%list_elem_of_bind & Hk)
                         %list_elem_of_bind & Hj)%list_elem_of_bind & Hi)
             %list_elem_of_bind.
    apply list_elem_of_singleton in Hq. injection Hq as -> -> -> ->.
    apply elem_of_seq in Hi, Hj, Hk, Hl. lia.
  - intros (Hij & Hjk & Hkl & Hln).
    apply list_elem_of_bind. exists i. split; [|apply elem_of_seq; lia].
    apply list_elem_of_bind. exists j. split; [|apply elem_of_seq; lia].
    apply list_elem_of_bind. exists k. split; [|apply elem_of_seq; lia].
    apply list_elem_of_bind. exists l. split; [|apply elem_of_seq; lia].
    by apply list_elem_of_singleton.
Qed.

(** The candidates of a round: the three splits of every group that the
    pre-filter does not skip. *)
Lemma candidates_elem (availablePlayers : list (Player PlayerId)) qc teams :
  teams ∈ candidates availablePlayers qc ↔
  ∃ f0 f1 f2 f3,
    IsGroup availablePlayers f0 f1 f2 f3 ∧
    skipGroup qc (Math_min (Object_values qc))
      (filter (hasMinCount qc (Math_min (Object_values qc))) availablePlayers)
      [f0; f1; f2; f3] = false ∧
    teams ∈ possibleTeams f0 f1 f2 f3.
Proof.
  unfold candidates. rewrite list_elem_of_bind. split.
  - intros ([[[i j] k] l] & Hteams & Hq%indexQuads_elem).
    unfold candidatesAt in Hteams.
    destruct (availablePlayers !! i) as [f0|] eqn:Hi; [|by inv Hteams].
    destruct (availablePlayers !! j) as [f1|] eqn:Hj; [|by inv Hteams].
    destruct (availablePlayers !! k) as [f2|] eqn:Hk; [|by inv Hteams].
    destruct (availablePlayers !! l) as [f3|] eqn:Hl; [|by inv Hteams].
    destruct (skipGroup _ _ _ _) eqn:Hskip; [by inv Hteams|].
    exists f0, f1, f2, f3. split; [|done].
    exists i, j, k, l. intuition.
  - intros (f0 & f1 & f2 & f3 & (i & j & k & l & Hij & Hjk & Hkl & Hi & Hj
                                 & Hk & Hl) & Hskip & Hteams).
    exists (i, j, k, l). split.
    + unfold candidatesAt. by rewrite Hi, Hj, Hk, Hl, Hskip.
    + apply indexQuads_elem. apply lookup_lt_Some in Hl. lia.
Qed.

Lemma possibleTeams_wf (f0 f1 f2 f3 : Player PlayerId) teams :
  teams ∈ possibleTeams f0 f1 f2 f3 → wfTeams teams.
Proof.
  unfold possibleTeams, wfTeams. rewrite !elem_of_cons, elem_of_nil.
  intros [->|[->|[->|[]]]]; eauto.
Qed.

Lemma candidates_wf (availablePlayers : list (Player PlayerId)) qc :
  Forall wfTeams (candidates availablePlayers qc).
Proof.
  apply Forall_forall. intros teams Hteams.
  apply candidates_elem in Hteams as (f0 & f1 & f2 & f3 & _ & _ & Hteams).
  by eapply possibleTeams_wf.
Qed.

(** What a round selects: nothing when no candidate reaches the scorer,
    otherwise a candidate whose score no other candidate undercuts. *)
Lemma findBestMatch_spec (availablePlayers : list (Player PlayerId))
  allGames queuedGames newQueue qc :
  let score := scoreOf qc (Math_min (Object_values qc)) allGames queuedGames
                 newQueue in
  match findBestMatch availablePlayers allGames queuedGames newQueue qc with
  | Some bestMatch =>
      bestMatch ∈ candidates availablePlayers qc ∧
      ∃ s, score bestMatch = Some s ∧
           ∀ c s', c ∈ candidates availablePlayers qc →
                   score c = Some s' → s ≤ s'
  | None => candidates availablePlayers qc = []
  end.
Proof.
  intros score. rewrite findBestMatch_fold.
  pose proof (argmin_fold qc (Math_min (Object_values qc)) allGames
                queuedGames newQueue (candidates availablePlayers qc) []
                (None, None) (candidates_wf _ _) eq_refl) as Hbest.
  rewrite app_nil_l in Hbest.
  destruct (foldl _ _ _) as [[s|] [m|]]; cbn [BestOf snd] in *; try done.
  destruct Hbest as (Hin & Hs & Hmin). eauto.
Qed.

(** *** Groups and sublists *)

Lemma lookup_sublist_cons {A} (l : list A) i x s :
  l !! i = Some x → s `sublist_of` drop (S i) l → x :: s `sublist_of` l.
Proof.
  intros Hi Hs. rewrite <- (take_drop_middle l i x Hi).
  by apply sublist_inserts_l, sublist_skip.
Qed.

Lemma group_sublist (availablePlayers : list (Player PlayerId)) f0 f1 f2 f3 :
  IsGroup availablePlayers f0 f1 f2 f3 →
  [f0; f1; f2; f3] `sublist_of` availablePlayers.
Proof.
  intros (i & j & k & l & Hij & Hjk & Hkl & Hi & Hj & Hk & Hl).
  apply (lookup_sublist_cons _ i); [done|].
  apply (lookup_sublist_cons _ (j - S i)).
  { rewrite lookup_drop. by replace (S i + (j - S i))%nat with j by lia. }
  rewrite drop_drop. replace (S i + S (j - S i))%nat with (S j) by lia.
  apply (lookup_sublist_cons _ (k - S j)).
  { rewrite lookup_drop. by replace (S j + (k - S j))%nat with k by lia. }
  rewrite drop_drop. replace (S j + S (k - S j))%nat with (S k) by lia.
  apply (lookup_sublist_cons _ (l - S k)).
  { rewrite lookup_drop. by replace (S k + (l - S k))%nat with l by lia. }
  apply sublist_nil_l.
Qed.

Lemma lookup_after {A} (k1 k2 : list A) x i y :
  k2 !! i = Some y → (k1 ++ x :: k2) !! (length k1 + 1 + i)%nat = Some y.
Proof.
  intros Hi. rewrite lookup_app_r by lia.
  replace (length k1 + 1 + i - length k1)%nat with (S i) by lia. done.
Qed.

Lemma sublist_group (availablePlayers : list (Player PlayerId)) f0 f1 f2 f3 :
  [f0; f1; f2; f3] `sublist_of` availablePlayers →
  IsGroup availablePlayers f0 f1 f2 f3.
Proof.
  intros (k1 & k2 & -> & (k3 & k4 & -> & (k5 & k6 & -> & (k7 & k8 & -> & _)
            %sublist_cons_l)%sublist_cons_l)%sublist_cons_l)%sublist_cons_l.
  exists (length k1), (length k1 + 1 + length k3)%nat,
    (length k1 + 1 + (length k3 + 1 + length k5))%nat,
    (length k1 + 1 + (length k3 + 1 + (length k5 + 1 + length k7)))%nat.
  split; [lia|]. split; [lia|]. split; [lia|].
  split; [apply list_lookup_middle; done|].
  split; [apply lookup_after, list_lookup_middle; done|].
  split; [do 2 apply lookup_after; apply list_lookup_middle; done|].
  do 3 apply lookup_after. by apply list_lookup_middle.
Qed.

Lemma possibleTeams_perm (f0 f1 f2 f3 : Player PlayerId) teams :
  teams ∈ possibleTeams f0 f1 f2 f3 →
  team1 teams ++ team2 teams ≡ₚ [f0; f1; f2; f3].
Proof.
  unfold possibleTeams. rewrite !elem_of_cons, elem_of_nil.
  intros [->|[->|[->|[]]]]; cbn [team1 team2 app].
  - done.
  - apply perm_skip, perm_swap.
  - apply perm_skip. apply (Permutation_cons_append [f1; f2] f3).
Qed.

(** *** Some candidate always reaches the scorer *)

Lemma filter_all {A} (P : A → Prop) `{!∀ x, Decision (P x)} (l : list A) :
  Forall P l → filter P l = l.
Proof.
  induction 1 as [|x l Hx _ IH]; [done|].
  by rewrite filter_cons_True, IH.
Qed.

Lemma sublist_extend {A} (s l : list A) (k : nat) :
  s `sublist_of` l → (length s ≤ k ≤ length l)%nat →
  ∃ s', s `sublist_of` s' ∧ s' `sublist_of` l ∧ length s' = k.
Proof.
  intros Hsub. revert k.
  induction Hsub as [|x s l Hsub IH|x s l Hsub IH]; intros k Hk.
  - exists []. simpl in Hk. repeat split; [done..|simpl; lia].
  - cbn [length] in Hk. destruct (IH (k - 1)%nat) as (s' & H1 & H2 & H3);
      [lia|].
    exists (x :: s'). split; [by apply sublist_skip|].
    split; [by apply sublist_skip|]. simpl. lia.
  - cbn [length] in Hk. destruct (decide (k ≤ length l)%nat) as [Hle|Hgt].
    + destruct (IH k) as (s' & H1 & H2 & H3); [lia|].
      exists s'. split; [done|]. split; [by apply sublist_cons|done].
    + exists (x :: l). split; [by apply sublist_cons|].
      split; [done|]. simpl. lia.
Qed.

Lemma sublist_filter_mono {A} (P : A → Prop) `{!∀ x, Decision (P x)}
  (l1 l2 : list A) :
  l1 `sublist_of` l2 → filter P l1 `sublist_of` filter P l2.
Proof.
  induction 1 as [|x l1 l2 _ IH|x l1 l2 _ IH]; [done|..].
  - rewrite !filter_cons. destruct (decide (P x)); [by apply sublist_skip|done].
  - rewrite filter_cons. destruct (decide (P x)); [by apply sublist_cons|done].
Qed.

Lemma sublist_length_eq {A} (l1 l2 : list A) :
  l1 `sublist_of` l2 → (length l2 ≤ length l1)%nat → l1 = l2.
Proof.
  induction 1 as [|x l1 l2 _ IH|x l1 l2 Hsub IH]; intros Hlen; [done|..].
  - f_equal. apply IH. simpl in Hlen. lia.
  - apply sublist_length in Hsub. simpl in Hlen. lia.
Qed.


(** Some group that the pre-filter lets through holds as many minimum-count
    players as four players can. *)
Lemma fairest_group_exists (availablePlayers : list (Player PlayerId)) qc :
  (4 ≤ length availablePlayers)%nat →
  ∃ f0 f1 f2 f3,
    IsGroup availablePlayers f0 f1 f2 f3 ∧
    skipGroup qc (Math_min (Object_values qc))
      (filter (hasMinCount qc (Math_min (Object_values qc))) availablePlayers)
      [f0; f1; f2; f3] = false ∧
    length (filter (hasMinCount qc (Math_min (Object_values qc)))
              [f0; f1; f2; f3])
    = (4 `min` length (filter (hasMinCount qc (Math_min (Object_values qc)))
                        availablePlayers))%nat.
Proof.
  intros Hn. set (cmin := Math_min (Object_values qc)).
  set (pm := filter (hasMinCount qc cmin) availablePlayers).
  assert (Hsub : pm `sublist_of` availablePlayers) by apply sublist_filter.
  assert (Hall : Forall (hasMinCount qc cmin) pm).
  { apply Forall_forall. intros x Hx.
    by apply list_elem_of_filter in Hx as [? _]. }
  destruct (decide (4 ≤ length pm)%nat) as [Hpm|Hpm].
  - assert (Hfour : take 4 pm `sublist_of` pm) by apply sublist_take.
    assert (Hlen : length (take 4 pm) = 4%nat) by (rewrite length_take; lia).
    assert (Hmin : Forall (hasMinCount qc cmin) (take 4 pm)).
    { by apply Forall_take. }
    destruct (take 4 pm) as [|f0 [|f1 [|f2 [|f3 [|? ?]]]]]; try done.
    exists f0, f1, f2, f3. split; [|split].
    + apply sublist_group. by etrans.
    + unfold skipGroup. rewrite filter_all by done.
      cbn [length]. rewrite (bool_decide_eq_false_2 (4 < 3)%nat) by lia.
      apply andb_false_r.
    + rewrite filter_all by done. cbn [length]. lia.
  - destruct (sublist_extend pm availablePlayers 4 Hsub)
      as (four & Hpm4 & H4 & Hlen); [lia|].
    assert (Hfilter : filter (hasMinCount qc cmin) four = pm).
    { symmetry. apply sublist_length_eq.
      - rewrite <- (filter_all (hasMinCount qc cmin) pm Hall) at 1.
        by apply sublist_filter_mono.
      - apply sublist_length. by apply sublist_filter_mono. }
    destruct four as [|f0 [|f1 [|f2 [|f3 [|? ?]]]]]; try done.
    exists f0, f1, f2, f3. split; [|split].
    + by apply sublist_group.
    + unfold skipGroup.
      by rewrite (bool_decide_eq_false_2 (4 ≤ length pm)%nat).
    + rewrite Hfilter. lia.
Qed.

Lemma findBestMatch_is_Some (availablePlayers : list (Player PlayerId))
  allGames queuedGames newQueue qc :
  (4 ≤ length availablePlayers)%nat →
  is_Some (findBestMatch availablePlayers allGames queuedGames newQueue qc).
Proof.
  intros Hn.
  pose proof (findBestMatch_spec availablePlayers allGames queuedGames
                newQueue qc) as Hspec. cbn zeta in Hspec.
  destruct (findBestMatch _ _ _ _ _) as [m|]; [by eexists|].
  destruct (fairest_group_exists availablePlayers qc Hn)
    as (f0 & f1 & f2 & f3 & Hgroup & Hskip & _).
  assert (Hin : mkMatch [f0; f1] [f2; f3] ∈ candidates availablePlayers qc).
  { apply candidates_elem. exists f0, f1, f2, f3.
    split; [done|]. split; [done|].
    unfold possibleTeams. apply list_elem_of_here. }
  rewrite Hspec in Hin. by apply elem_of_nil in Hin.
Qed.

(** *** The round loop *)

Lemma queueLoop_length_le rounds (availablePlayers : list (Player PlayerId))
  allGames queuedGames newQueue qc :
  (length (queueLoop rounds availablePlayers allGames queuedGames newQueue
             qc).1 ≤ length newQueue + rounds)%nat.
Proof.
  revert newQueue qc.
  induction rounds as [|rounds IH]; intros newQueue qc; cbn [queueLoop].
  - simpl. lia.
  - destruct (findBestMatch _ _ _ _ _) as [bestMatch|]; [|simpl; lia].
    etrans; [apply IH|]. rewrite length_app. simpl. lia.
Qed.

Lemma queueLoop_length rounds (availablePlayers : list (Player PlayerId))
  allGames queuedGames newQueue qc :
  (4 ≤ length availablePlayers)%nat →
  length (queueLoop rounds availablePlayers allGames queuedGames newQueue
            qc).1 = (length newQueue + rounds)%nat.
Proof.
  intros Hn. revert newQueue qc.
  induction rounds as [|rounds IH]; intros newQueue qc; cbn [queueLoop].
  - simpl. lia.
  - destruct (findBestMatch_is_Some availablePlayers allGames queuedGames
                newQueue qc Hn) as [bestMatch ->].
    rewrite IH, length_app. simpl. lia.
Qed.

(** Every element of the answer was in [newQueue] or was selected by some
    round. *)
Lemma queueLoop_Forall (P : Match PlayerId → Prop) rounds
  (availablePlayers : list (Player PlayerId)) allGames queuedGames newQueue qc :
  (∀ newQueue' qc' bestMatch,
     findBestMatch availablePlayers allGames queuedGames newQueue' qc'
       = Some bestMatch → P bestMatch) →
  Forall P newQueue →
  Forall P (queueLoop rounds availablePlayers allGames queuedGames newQueue
              qc).1.
Proof.
  intros Hsel. revert newQueue qc.
  induction rounds as [|rounds IH]; intros newQueue qc Hq; cbn [queueLoop].
  - done.
  - destruct (findBestMatch _ _ _ _ _) as [bestMatch|] eqn:Hbest; [|done].
    apply IH. apply Forall_app. split; [done|].
    apply Forall_singleton. by eapply Hsel.
Qed.

Lemma generateQueue_small (availablePlayers : list (Player PlayerId))
  allGames queuedGames :
  (length availablePlayers < 4)%nat →
  generateQueue availablePlayers allGames queuedGames = [].
Proof.
  intros Hn. unfold generateQueue, generateQueue_run.
  by rewrite bool_decide_eq_true_2.
Qed.

Lemma generateQueue_large (availablePlayers : list (Player PlayerId))
  allGames queuedGames :
  (4 ≤ length availablePlayers)%nat →
  generateQueue_run availablePlayers allGames queuedGames
  = queueLoop maxQueueGames availablePlayers allGames queuedGames []
      (initCounts availablePlayers).
Proof.
  intros Hn. unfold generateQueue_run.
  by rewrite bool_decide_eq_false_2 by lia.
Qed.

Lemma generateQueue_length_3 (availablePlayers : list (Player PlayerId))
  allGames queuedGames :
  (4 ≤ length availablePlayers)%nat →
  length (generateQueue availablePlayers allGames queuedGames) = 3%nat.
Proof.
  intros Hn. unfold generateQueue.
  rewrite generateQueue_large by done. by rewrite queueLoop_length.
Qed.


(** *** Distinctness of the selected players *)

Lemma sublist_fmap_id (l1 l2 : list (Player PlayerId)) :
  l1 `sublist_of` l2 → id <$> l1 `sublist_of` id <$> l2.
Proof.
  induction 1; csimpl; [done | by apply sublist_skip | by apply sublist_cons].
Qed.

Lemma group_NoDup (availablePlayers : list (Player PlayerId)) f0 f1 f2 f3 :
  NoDup (id <$> availablePlayers) →
  IsGroup availablePlayers f0 f1 f2 f3 →
  NoDup (id <$> [f0; f1; f2; f3]).
Proof.
  intros Hnd Hgroup.
  apply (sublist_NoDup _ (id <$> availablePlayers)).
  - exact Hnd.
  - by apply sublist_fmap_id, group_sublist.
Qed.

(** What a round can select: a split of a group that was not skipped. *)
Lemma findBestMatch_group (availablePlayers : list (Player PlayerId))
  allGames queuedGames newQueue qc bestMatch :
  findBestMatch availablePlayers allGames queuedGames newQueue qc
    = Some bestMatch →
  ∃ f0 f1 f2 f3,
    IsGroup availablePlayers f0 f1 f2 f3 ∧
    skipGroup qc (Math_min (Object_values qc))
      (filter (hasMinCount qc (Math_min (Object_values qc))) availablePlayers)
      [f0; f1; f2; f3] = false ∧
    bestMatch ∈ possibleTeams f0 f1 f2 f3.
Proof.
  intros Hbest.
  pose proof (findBestMatch_spec availablePlayers allGames queuedGames
                newQueue qc) as Hspec.
  rewrite Hbest in Hspec. destruct Hspec as [Hin _].
  by apply candidates_elem.
Qed.

(** C9. When the available players have pairwise distinct ids, every match
    of the answer has two teams of two players, its four ids are pairwise
    distinct, and no id of team 1 is an id of team 2. *)
Theorem generateQueue_distinct (availablePlayers : list (Player PlayerId))
  allGames queuedGames :
  NoDup (id <$> availablePlayers) →
  Forall (λ bestMatch,
            length (team1 bestMatch) = 2%nat ∧
            length (team2 bestMatch) = 2%nat ∧
            NoDup (id <$> team1 bestMatch ++ team2 bestMatch) ∧
            ∀ x, x ∈ id <$> team1 bestMatch → x ∉ id <$> team2 bestMatch)
    (generateQueue availablePlayers allGames queuedGames).
Proof.
  intros Hnd. unfold generateQueue, generateQueue_run.
  case_bool_decide; [done|].
  apply queueLoop_Forall; [|done].
  intros newQueue' qc' bestMatch Hbest.
  apply findBestMatch_group in Hbest
    as (f0 & f1 & f2 & f3 & Hgroup & _ & Hteams).
  assert (Hnd4 : NoDup (id <$> team1 bestMatch ++ team2 bestMatch)).
  { rewrite (possibleTeams_perm _ _ _ _ _ Hteams). by eapply group_NoDup. }
  apply possibleTeams_wf in Hteams as (t1a & t1b & t2a & t2b & ->).
  cbn [team1 team2] in *. split; [done|]. split; [done|]. split; [done|].
  rewrite fmap_app in Hnd4. by apply NoDup_app in Hnd4 as (_ & Hdisj & _).
Qed.

(** *** The fairness pre-filter *)


(** *** Fair rotation when the counters dominate the score *)

Lemma totalScoreOf_split qc cmin allGames queuedGames
  (newQueue : list (Match PlayerId)) t1a t1b t2a t2b :
  totalScoreOf qc cmin allGames queuedGames newQueue t1a t1b t2a t2b
  = usageScore qc cmin [t1a; t1b; t2a; t2b]
    + historyScore t1a t1b t2a t2b
        (allGames ++ queuedGames ++ (Queued <$> newQueue)).
Proof.
  unfold totalScoreOf, usageScore, historyScore. cbn [app]. lia.
Qed.


Lemma Object_values_elem (qc : gmap PlayerId Z) v :
  v ∈ Object_values qc ↔ ∃ key, qc !! key = Some v.
Proof.
  unfold Object_values. rewrite list_elem_of_fmap. split.
  - intros ([key v'] & -> & Hkv%elem_of_map_to_list). by exists key.
  - intros (key & Hkv). exists (key, v). split; [done|].
    by apply elem_of_map_to_list.
Qed.



Lemma group_elems (availablePlayers : list (Player PlayerId)) f0 f1 f2 f3 :
  IsGroup availablePlayers f0 f1 f2 f3 →
  Forall (λ x, x ∈ availablePlayers) [f0; f1; f2; f3].
Proof.
  intros Hgroup%group_sublist. apply Forall_forall. intros x Hx.
  by eapply elem_of_sublist.
Qed.




Lemma init_lookup (l : list (Player PlayerId)) (qc : gmap PlayerId Z) key :
  foldl (λ qc x, <[id x := 0]> qc) qc l !! key
  = if decide (key ∈ id <$> l) then Some 0 else qc !! key.
Proof.
  revert qc. induction l as [|x l IH]; intros qc.
  - cbn [foldl]. rewrite decide_False; [done|].
    rewrite fmap_nil. apply not_elem_of_nil.
  - cbn [foldl]. rewrite IH, fmap_cons.
    destruct (decide (key ∈ id <$> l)) as [Hin|Hnin].
    + rewrite decide_True; [done|]. by apply list_elem_of_further.
    + destruct (decide (key = id x)) as [->|Hne].
      * rewrite lookup_insert_eq.
        rewrite decide_True; [done|]. apply list_elem_of_here.
      * rewrite lookup_insert_ne by done.
        rewrite decide_False; [done|].
        intros [?|?]%elem_of_cons; done.
Qed.

Lemma initCounts_balanced (availablePlayers : list (Player PlayerId)) :
  Balanced availablePlayers (initCounts availablePlayers).
Proof.
  unfold initCounts. split; [|split].
  - intros x Hx. rewrite init_lookup, decide_True; [by eexists|].
    by apply list_elem_of_fmap_2.
  - intros key [v Hv]. rewrite init_lookup in Hv.
    destruct (decide (key ∈ id <$> availablePlayers)) as [Hin|Hnin].
    + apply list_elem_of_fmap in Hin as (x & -> & Hx). eauto.
    + by rewrite lookup_empty in Hv.
  - exists 0. intros x Hx. unfold countOf.
    rewrite init_lookup, decide_True; [simpl; lia|].
    by apply list_elem_of_fmap_2.
Qed.







(** *** Every read of the loop is defined *)

Lemma index_reads_in_range (availablePlayers : list (Player PlayerId)) i j k l :
  (i, j, k, l) ∈ indexQuads (length availablePlayers) →
  is_Some (availablePlayers !! i) ∧ is_Some (availablePlayers !! j) ∧
  is_Some (availablePlayers !! k) ∧ is_Some (availablePlayers !! l).
Proof.
  intros Hq%indexQuads_elem.
  repeat split; apply lookup_lt_is_Some; lia.
Qed.

Lemma bump_keeps_keys (l : list (Player PlayerId)) (qc : gmap PlayerId Z) key :
  is_Some (qc !! key) →
  is_Some (foldl (λ qc x, <[id x := countOf qc x + 1]> qc) qc l !! key).
Proof.
  revert qc. induction l as [|x l IH]; intros qc Hkey; [done|].
  cbn [foldl]. apply IH.
  destruct (decide (key = id x)) as [->|Hne].
  - rewrite lookup_insert_eq. by eexists.
  - by rewrite lookup_insert_ne.
Qed.

(** [queueCount[p.id]] is defined for every available player, at the head
    of every round. *)
Lemma queueLoop_defined (availablePlayers : list (Player PlayerId))
  allGames queuedGames newQueue qc :
  Reachable availablePlayers allGames queuedGames newQueue qc →
  ∀ x : Player PlayerId, x ∈ availablePlayers → is_Some (qc !! id x).
Proof.
  induction 1 as [|newQueue qc bestMatch _ IH _]; intros x Hx.
  - by destruct (initCounts_balanced availablePlayers) as [Hkeys _]; apply Hkeys.
  - by apply bump_keeps_keys, IH.
Qed.

(** [Math.min(...counts)] has an argument, at the head of every round. *)
Lemma Object_values_nonempty (availablePlayers : list (Player PlayerId))
  allGames queuedGames newQueue qc :
  availablePlayers ≠ [] →
  Reachable availablePlayers allGames queuedGames newQueue qc →
  Object_values qc ≠ [].
Proof.
  intros Hne Hreach Hnil.
  destruct availablePlayers as [|x rest]; [done|].
  destruct (queueLoop_defined _ _ _ _ _ Hreach x) as [v Hv];
    [apply list_elem_of_here|].
  assert (Hin : v ∈ Object_values qc) by (apply Object_values_elem; eauto).
  rewrite Hnil in Hin. by apply elem_of_nil in Hin.
Qed.

(** The loop answers the state at the head of a round. *)
Lemma queueLoop_reachable rounds (availablePlayers : list (Player PlayerId))
  allGames queuedGames newQueue qc :
  Reachable availablePlayers allGames queuedGames newQueue qc →
  Reachable availablePlayers allGames queuedGames
    (queueLoop rounds availablePlayers allGames queuedGames newQueue qc).1
    (queueLoop rounds availablePlayers allGames queuedGames newQueue qc).2.
Proof.
  revert newQueue qc.
  induction rounds as [|rounds IH]; intros newQueue qc Hreach; cbn [queueLoop].
  - done.
  - destruct (findBestMatch _ _ _ _ _) as [bestMatch|] eqn:Hbest; [|done].
    apply IH. by apply reach_commit.
Qed.

(** C8. [generateQueue] is a total function: on every input it answers a
    queue, of at most three matches, and the empty queue whenever fewer than
    four players are available. No step of it can fail: every index the
    four loops read is in range, and at the head of every round every
    available player has a counter. *)
Theorem generateQueue_bounded (availablePlayers : list (Player PlayerId))
  allGames queuedGames :
  (length (generateQueue availablePlayers allGames queuedGames) ≤ 3)%nat ∧
  ((length availablePlayers < 4)%nat →
   generateQueue availablePlayers allGames queuedGames = []) ∧
  (∀ i j k l, (i, j, k, l) ∈ indexQuads (length availablePlayers) →
     is_Some (availablePlayers !! i) ∧ is_Some (availablePlayers !! j) ∧
     is_Some (availablePlayers !! k) ∧ is_Some (availablePlayers !! l)) ∧
  (∀ newQueue qc,
     Reachable availablePlayers allGames queuedGames newQueue qc →
     ∀ x : Player PlayerId, x ∈ availablePlayers → is_Some (qc !! id x)).
Proof.
  split; [|split; [apply generateQueue_small|split]].
  - unfold generateQueue, generateQueue_run. case_bool_decide.
    + simpl. lia.
    + etrans; [apply queueLoop_length_le|]. unfold maxQueueGames. simpl. lia.
  - intros i j k l. apply index_reads_in_range.
  - intros newQueue qc. apply queueLoop_defined.
Qed.

(** *** An input without history *)





(** *** Four players and no history *)





End Properties.

(** ** Further properties *)

Section MoreProperties.

Context {PlayerId : Type} {PlayerId_eq : EqDecision PlayerId}
  {PlayerId_countable : Countable PlayerId}.

Implicit Types (p : PlayerId) (game : Game PlayerId) (games : list (Game PlayerId)).

(** *** The counters count the slots of the queue *)

Lemma countIf_app {A} (P : A → Prop) `{!∀ x, Decision (P x)} (l k : list A) :
  countIf P (l ++ k) = countIf P l + countIf P k.
Proof.
  unfold countIf. rewrite filter_app, length_app. lia.
Qed.

Lemma countIf_bounds {A} (P : A → Prop) `{!∀ x, Decision (P x)} (l : list A) :
  0 ≤ countIf P l ≤ Z.of_nat (length l).
Proof.
  unfold countIf. pose proof (length_filter P l). lia.
Qed.

(** [queueCount[p.id]++] for each player of [l], whatever their ids. *)
Lemma bump_count (l : list (Player PlayerId)) (qc : gmap PlayerId Z) key :
  default 0 (foldl (λ qc x, <[id x := countOf qc x + 1]> qc) qc l !! key)
  = default 0 (qc !! key) + countIf (λ x : Player PlayerId, id x = key) l.
Proof.
  revert qc. induction l as [|x l IH]; intros qc.
  - cbn [foldl]. unfold countIf. simpl. lia.
  - cbn [foldl]. rewrite IH, countIf_cons.
    destruct (decide (id x = key)) as [<-|Hne].
    + rewrite lookup_insert_eq. unfold countOf. simpl. lia.
    + rewrite lookup_insert_ne by done. lia.
Qed.

Lemma countOf_bump qc (bestMatch : Match PlayerId) (x : Player PlayerId) :
  countOf (bumpCounts qc bestMatch) x = countOf qc x + slotsOf (id x) bestMatch.
Proof. unfold countOf at 1, bumpCounts. by rewrite bump_count. Qed.

Lemma appearances_snoc key (queue : list (Match PlayerId)) bestMatch :
  appearances key (queue ++ [bestMatch])
  = appearances key queue + slotsOf key bestMatch.
Proof.
  induction queue as [|m queue IH]; cbn [app appearances foldr].
  - lia.
  - fold (appearances key (queue ++ [bestMatch])).
    fold (appearances key queue). lia.
Qed.

Lemma countOf_init (availablePlayers : list (Player PlayerId))
  (x : Player PlayerId) :
  countOf (initCounts availablePlayers) x = 0.
Proof.
  unfold countOf, initCounts. rewrite init_lookup.
  destruct (decide _); [done|]. by rewrite lookup_empty.
Qed.

Lemma reachable_counts (availablePlayers : list (Player PlayerId))
  allGames queuedGames newQueue qc :
  Reachable availablePlayers allGames queuedGames newQueue qc →
  ∀ x : Player PlayerId, countOf qc x = appearances (id x) newQueue.
Proof.
  induction 1 as [|newQueue qc bestMatch _ IH _]; intros x.
  - apply countOf_init.
  - by rewrite countOf_bump, appearances_snoc, IH.
Qed.

Lemma generateQueue_run_reachable (availablePlayers : list (Player PlayerId))
  allGames queuedGames :
  (4 ≤ length availablePlayers)%nat →
  Reachable availablePlayers allGames queuedGames
    (generateQueue_run availablePlayers allGames queuedGames).1
    (generateQueue_run availablePlayers allGames queuedGames).2.
Proof.
  intros Hn. rewrite generateQueue_large by done.
  apply queueLoop_reachable, reach_start.
Qed.

Lemma slots_distinct (l : list (Player PlayerId)) key :
  NoDup (id <$> l) →
  countIf (λ x : Player PlayerId, id x = key) l
  = if decide (key ∈ id <$> l) then 1 else 0.
Proof.
  induction l as [|x l IH]; intros Hnd.
  - unfold countIf. rewrite decide_False; [done|].
    rewrite fmap_nil. apply not_elem_of_nil.
  - rewrite fmap_cons in Hnd. apply NoDup_cons in Hnd as [Hx Hnd].
    rewrite countIf_cons, IH by done. rewrite fmap_cons.
    destruct (decide (id x = key)) as [<-|Hne].
    + rewrite (decide_False (P := id x ∈ id <$> l)) by done.
      by rewrite decide_True by apply list_elem_of_here.
    + destruct (decide (key ∈ id <$> l)) as [Hin|Hnin].
      * by rewrite decide_True by (by apply list_elem_of_further).
      * rewrite decide_False; [done|].
        intros [?|?]%elem_of_cons; done.
Qed.

(** The matches of the answer list four pairwise distinct ids. *)
Lemma generateQueue_NoDup (availablePlayers : list (Player PlayerId))
  allGames queuedGames :
  NoDup (id <$> availablePlayers) →
  Forall (λ bestMatch, NoDup (id <$> team1 bestMatch ++ team2 bestMatch))
    (generateQueue availablePlayers allGames queuedGames).
Proof.
  intros Hnd. unfold generateQueue, generateQueue_run.
  case_bool_decide; [done|].
  apply queueLoop_Forall; [|done].
  intros newQueue' qc' bestMatch Hbest.
  apply findBestMatch_group in Hbest
    as (f0 & f1 & f2 & f3 & Hgroup & _ & Hteams).
  rewrite (possibleTeams_perm _ _ _ _ _ Hteams). by eapply group_NoDup.
Qed.

Lemma appearances_distinct (queue : list (Match PlayerId)) key :
  Forall (λ bestMatch, NoDup (id <$> team1 bestMatch ++ team2 bestMatch))
    queue →
  appearances key queue
  = countIf (λ bestMatch, key ∈ id <$> team1 bestMatch ++ team2 bestMatch)
      queue.
Proof.
  induction 1 as [|bestMatch queue Hm _ IH]; [done|].
  cbn [appearances foldr]. fold (appearances key queue).
  rewrite IH, countIf_cons. unfold slotsOf.
  rewrite slots_distinct by done. by destruct (decide _).
Qed.

(** X1. The final counter of a player is the number of slots of the answer
    that hold a player of that id; when the available players have pairwise
    distinct ids, it is the number of matches of the answer that the player
    is in. *)
Theorem counters_count_slots (availablePlayers : list (Player PlayerId))
  allGames queuedGames (x : Player PlayerId) :
  countOf (generateQueue_run availablePlayers allGames queuedGames).2 x
  = appearances (id x) (generateQueue availablePlayers allGames queuedGames) ∧
  (NoDup (id <$> availablePlayers) →
   countOf (generateQueue_run availablePlayers allGames queuedGames).2 x
   = countIf (λ bestMatch,
                id x ∈ id <$> team1 bestMatch ++ team2 bestMatch)
       (generateQueue availablePlayers allGames queuedGames)).
Proof.
  assert (Hslots :
    countOf (generateQueue_run availablePlayers allGames queuedGames).2 x
    = appearances (id x)
        (generateQueue availablePlayers allGames queuedGames)).
  { unfold generateQueue.
    destruct (decide (length availablePlayers < 4)%nat) as [Hn|Hn].
    - unfold generateQueue_run. rewrite bool_decide_eq_true_2 by done. done.
    - eapply reachable_counts, generateQueue_run_reachable. lia. }
  split; [exact Hslots|].
  intros Hnd. rewrite Hslots.
  by apply appearances_distinct, generateQueue_NoDup.
Qed.


(** *** How the three matches are shared out *)

Lemma sumOver_cons {A} (f : A → Z) x (l : list A) :
  sumOver f (x :: l) = f x + sumOver f l.
Proof. reflexivity. Qed.

Lemma sumOver_ext_in {A} (f g : A → Z) (l : list A) :
  (∀ x, x ∈ l → f x = g x) → sumOver f l = sumOver g l.
Proof.
  induction l as [|x l IH]; intros Hfg; [done|].
  rewrite !sumOver_cons, IH.
  - by rewrite Hfg by apply list_elem_of_here.
  - intros y Hy. by apply Hfg, list_elem_of_further.
Qed.







(** *** Ties between candidates *)

Lemma first_best_step qc cmin allGames queuedGames newQueue
  (seen : list (Match PlayerId)) best teams :
  wfTeams teams →
  FirstBest (scoreOf qc cmin allGames queuedGames newQueue) seen best →
  FirstBest (scoreOf qc cmin allGames queuedGames newQueue) (seen ++ [teams])
    (tryTeams qc cmin allGames queuedGames newQueue best teams).
Proof.
  intros (t1a & t1b & t2a & t2b & ->) Hbest.
  unfold tryTeams. cbn [team1 team2].
  set (total := totalScoreOf qc cmin allGames queuedGames newQueue
                  t1a t1b t2a t2b).
  destruct best as [[s|] [m|]]; cbn [FirstBest fst below] in *; try done.
  - destruct Hbest as (Hs & before & after & -> & Hbefore & Hafter).
    destruct (bool_decide (total < s)) eqn:Hlt.
    + apply bool_decide_eq_true in Hlt. split; [done|].
      exists (before ++ m :: after), []. split; [done|]. split.
      * intros c s' [Hc|[->|Hc]%elem_of_cons]%elem_of_app Hsc.
        -- specialize (Hbefore c s' Hc Hsc). lia.
        -- rewrite Hs in Hsc. injection Hsc as <-. lia.
        -- specialize (Hafter c s' Hc Hsc). lia.
      * intros c s' Hc. by apply elem_of_nil in Hc.
    + apply bool_decide_eq_false in Hlt. split; [done|].
      exists before, (after ++ [mkMatch [t1a; t1b] [t2a; t2b]]).
      split; [by rewrite <- app_assoc|]. split; [done|].
      intros c s' [Hc|Hc%list_elem_of_singleton]%elem_of_app Hsc.
      * by apply (Hafter c).
      * subst c. cbn in Hsc. fold total in Hsc. injection Hsc as <-. lia.
  - subst seen. split; [done|].
    exists [], []. split; [done|].
    split; intros c s' Hc; by apply elem_of_nil in Hc.
Qed.

Lemma first_best_fold qc cmin allGames queuedGames newQueue
  (cands seen : list (Match PlayerId)) best :
  Forall wfTeams cands →
  FirstBest (scoreOf qc cmin allGames queuedGames newQueue) seen best →
  FirstBest (scoreOf qc cmin allGames queuedGames newQueue) (seen ++ cands)
    (foldl (tryTeams qc cmin allGames queuedGames newQueue) best cands).
Proof.
  intros Hwf. revert seen best.
  induction Hwf as [|teams cands Hteams _ IH]; intros seen best Hbest.
  - by rewrite app_nil_r.
  - cbn [foldl]. rewrite cons_middle, app_assoc.
    apply IH. by apply first_best_step.
Qed.

(** X4. A round selects the first of the least-scoring candidates, in the
    order in which the loops reach them: every candidate reached before the
    selected one scores strictly more, and none reached after it scores
    less. It selects nothing only when no candidate reaches the scorer. *)
Theorem first_of_the_best_wins (availablePlayers : list (Player PlayerId))
  allGames queuedGames newQueue qc :
  let score := scoreOf qc (Math_min (Object_values qc)) allGames queuedGames
                 newQueue in
  match findBestMatch availablePlayers allGames queuedGames newQueue qc with
  | Some bestMatch =>
      ∃ s before after,
        score bestMatch = Some s ∧
        candidates availablePlayers qc = before ++ bestMatch :: after ∧
        (∀ c s', c ∈ before → score c = Some s' → s < s') ∧
        (∀ c s', c ∈ after → score c = Some s' → s ≤ s')
  | None => candidates availablePlayers qc = []
  end.
Proof.
  intros score. rewrite findBestMatch_fold.
  pose proof (first_best_fold qc (Math_min (Object_values qc)) allGames
                queuedGames newQueue (candidates availablePlayers qc) []
                (None, None) (candidates_wf _ _) eq_refl) as Hbest.
  rewrite app_nil_l in Hbest.
  destruct (foldl _ _ _) as [[s|] [m|]]; cbn [FirstBest snd] in *; try done.
  destruct Hbest as (Hs & before & after & Hcands & Hbefore & Hafter).
  exists s, before, after. by repeat split.
Qed.

(** *** The shape of the selected matches *)

(** The matches of the answer, with the group each one splits. *)
Lemma generateQueue_groups (availablePlayers : list (Player PlayerId))
  allGames queuedGames :
  Forall (λ bestMatch,
            ∃ f0 f1 f2 f3,
              IsGroup availablePlayers f0 f1 f2 f3 ∧
              bestMatch ∈ possibleTeams f0 f1 f2 f3)
    (generateQueue availablePlayers allGames queuedGames).
Proof.
  unfold generateQueue, generateQueue_run. case_bool_decide; [done|].
  apply queueLoop_Forall; [|done].
  intros newQueue' qc' bestMatch Hbest.
  apply findBestMatch_group in Hbest
    as (f0 & f1 & f2 & f3 & Hgroup & _ & Hteams).
  by exists f0, f1, f2, f3.
Qed.

(** X5. Every match of the answer is one of the three splits of four
    players read at increasing positions of [availablePlayers]: its players
    are available players, and the first player of team 1 is the one who
    comes first in the list. *)
Theorem generateQueue_splits_of_groups
  (availablePlayers : list (Player PlayerId)) allGames queuedGames :
  Forall (λ bestMatch,
            (∃ f0 f1 f2 f3,
               IsGroup availablePlayers f0 f1 f2 f3 ∧
               bestMatch ∈ possibleTeams f0 f1 f2 f3 ∧
               team1 bestMatch !! 0%nat = Some f0) ∧
            Forall (λ x, x ∈ availablePlayers)
              (team1 bestMatch ++ team2 bestMatch))
    (generateQueue availablePlayers allGames queuedGames).
Proof.
  eapply Forall_impl; [apply generateQueue_groups|].
  intros bestMatch (f0 & f1 & f2 & f3 & Hgroup & Hteams). split.
  - exists f0, f1, f2, f3. split; [done|]. split; [done|].
    unfold possibleTeams in Hteams.
    rewrite !elem_of_cons, elem_of_nil in Hteams.
    by destruct Hteams as [->|[->|[->|[]]]].
  - rewrite (possibleTeams_perm _ _ _ _ _ Hteams). by apply group_elems.
Qed.

(** *** The two history functions *)

Lemma onSameTeam_sym p1 p2 game : onSameTeam p1 p2 game ↔ onSameTeam p2 p1 game.
Proof. unfold onSameTeam. tauto. Qed.

Lemma onOppositeTeams_sym p1 p2 game :
  onOppositeTeams p1 p2 game ↔ onOppositeTeams p2 p1 game.
Proof. unfold onOppositeTeams. tauto. Qed.

Lemma both_appear p1 p2 game :
  appearsIn p1 game ∧ appearsIn p2 game ↔
  onSameTeam p1 p2 game ∨ onOppositeTeams p1 p2 game.
Proof.
  unfold appearsIn, onSameTeam, onOppositeTeams.
  rewrite !elem_of_app. tauto.
Qed.

Lemma pairing_sum p1 p2 games :
  countIf (onSameTeam p1 p2) games
  + countIf (λ game, onOppositeTeams p1 p2 game ∧ ¬ onSameTeam p1 p2 game) games
  = countIf (λ game, appearsIn p1 game ∧ appearsIn p2 game) games.
Proof.
  induction games as [|game games IH]; [done|].
  rewrite !countIf_cons, <- IH.
  pose proof (both_appear p1 p2 game) as Hboth.
  destruct (decide (onSameTeam p1 p2 game)),
    (decide (onOppositeTeams p1 p2 game ∧ ¬ onSameTeam p1 p2 game)),
    (decide (appearsIn p1 game ∧ appearsIn p2 game)); tauto || lia.
Qed.

(** X6. [getPlayerPairingHistory] does not depend on the order of its two
    participants; its two counters are non-negative and together count
    exactly the games in which both participants appear; and the history of
    two lists of games put end to end is the sum of their histories. *)
Theorem pairing_history_both_appear p1 p2 games (more : list (Game PlayerId)) :
  let history := getPlayerPairingHistory p1 p2 in
  history games = getPlayerPairingHistory p2 p1 games ∧
  0 ≤ teammates (history games) ∧
  0 ≤ opponents (history games) ∧
  teammates (history games) + opponents (history games)
  = countIf (λ game, appearsIn p1 game ∧ appearsIn p2 game) games ∧
  teammates (history (games ++ more))
  = teammates (history games) + teammates (history more) ∧
  opponents (history (games ++ more))
  = opponents (history games) + opponents (history more).
Proof.
  intros history. subst history. unfold getPlayerPairingHistory.
  rewrite !pairing_foldl. cbn [teammates opponents].
  rewrite !countIf_app.
  pose proof (countIf_bounds (onSameTeam p1 p2) games).
  pose proof (countIf_bounds
    (λ game, onOppositeTeams p1 p2 game ∧ ¬ onSameTeam p1 p2 game) games).
  pose proof (pairing_sum p1 p2 games).
  split; [|lia].
  f_equal; f_equal; apply countIf_ext, Forall_forall; intros game _.
  - apply onSameTeam_sym.
  - pose proof (onSameTeam_sym p1 p2 game).
    pose proof (onOppositeTeams_sym p1 p2 game). tauto.
Qed.

Lemma recency_sym p1 p2 k (window : list (Game PlayerId)) :
  recencyOldestFirst p1 p2 k window = recencyOldestFirst p2 p1 k window.
Proof.
  induction window as [|game newer IH]; [done|].
  cbn [recencyOldestFirst]. by rewrite IH, (andb_comm (inGame game p1)).
Qed.

(** Every game of the window adds between [2 * (11 - (length window + k))]
    and [2 * (10 - k)]. *)
Lemma recency_between p1 p2 k (window : list (Game PlayerId)) :
  let shared := countIf (bothInGame p1 p2) window in
  2 * (11 - (Z.of_nat (length window) + k)) * shared
  ≤ recencyOldestFirst p1 p2 k window
  ≤ 2 * (10 - k) * shared.
Proof.
  induction window as [|game newer IH]; [cbn; unfold countIf; simpl; lia|].
  cbn zeta in *. cbn [recencyOldestFirst]. rewrite countIf_cons, both_decide.
  pose proof (countIf_bounds (bothInGame p1 p2) newer) as Hc.
  unfold maxGamesToCheck. cbn [length] in *.
  destruct (decide (bothInGame p1 p2 game)) as [Hb|Hb].
  - rewrite bool_decide_eq_true_2 by done. nia.
  - rewrite bool_decide_eq_false_2 by done. nia.
Qed.

(** The sum over a window of at most ten games, at no shift, is at most
    [20 + 18 + ... ]. *)
Lemma recency_at_most p1 p2 k (window : list (Game PlayerId)) :
  0 ≤ k → (length window ≤ 10)%nat →
  recencyOldestFirst p1 p2 k window
  ≤ Z.of_nat (length window) * (21 - Z.of_nat (length window)).
Proof.
  intros Hk. induction window as [|game newer IH]; intros Hlen; [done|].
  cbn [recencyOldestFirst]. cbn [length] in *.
  specialize (IH ltac:(lia)). unfold maxGamesToCheck.
  destruct (inGame game p1 && inGame game p2); nia.
Qed.

(** X7. [getPlayerInteractionScore] does not depend on the order of its two
    participants and never exceeds 110. With [shared] the number of games of
    the last ten in which both appear, it lies between
    [2 * (11 - length) * shared] and [2 * (20 - max length 10) * shared]:
    on a list of at most ten games every shared game adds at least 2, and on
    a list of twenty games or more no game adds anything above zero. *)
Theorem interaction_score_range p1 p2 (recentGames : list (Game PlayerId)) :
  let score := getPlayerInteractionScore p1 p2 recentGames in
  let len := Z.of_nat (length recentGames) in
  let shared := countIf (bothInGame p1 p2) (slice_last 10 recentGames) in
  score = getPlayerInteractionScore p2 p1 recentGames ∧
  2 * (11 - len) * shared ≤ score ≤ 2 * (20 - Z.max len 10) * shared ∧
  0 ≤ shared ≤ Z.min len 10 ∧
  score ≤ 110.
Proof.
  intros score len shared. subst score len shared.
  unfold getPlayerInteractionScore.
  change (Z.to_nat maxGamesToCheck) with 10%nat.
  assert (Hlen : length (slice_last 10 recentGames)
                 = Nat.min (length recentGames) 10).
  { unfold slice_last. rewrite length_drop. lia. }
  set (k := Z.of_nat (length recentGames - 10)).
  rewrite !(forEachIdx_interaction _ _ _ _ _ _ k) by (rewrite Hlen; lia).
  pose proof (recency_between p1 p2 k (slice_last 10 recentGames)) as Hb.
  pose proof (recency_at_most p1 p2 k (slice_last 10 recentGames)) as Hm.
  pose proof (countIf_bounds (bothInGame p1 p2) (slice_last 10 recentGames))
    as Hc.
  cbn zeta in Hb. rewrite Hlen in *.
  split; [by rewrite recency_sym|].
  replace (Z.of_nat (length recentGames `min` 10) + k)
    with (Z.of_nat (length recentGames)) in Hb by lia.
  replace (20 - Z.of_nat (length recentGames) `max` 10) with (10 - k) by lia.
  split; [lia|]. split; [lia|].
  specialize (Hm ltac:(lia) ltac:(lia)). nia.
Qed.

(** *** What a round reads of the matches committed so far *)

Lemma forEachIdx_alike p1 p2 len (window window' : list (Game PlayerId))
  idx score :
  Forall2 (λ game game', ∀ p, inGame game p = inGame game' p) window window' →
  forEachIdx (interactionStep p1 p2 len) idx window score
  = forEachIdx (interactionStep p1 p2 len) idx window' score.
Proof.
  intros Halike. revert idx score.
  induction Halike as [|game game' window window' Hg _ IH]; intros idx score;
    [done|].
  cbn [forEachIdx]. rewrite IH. unfold interactionStep. by rewrite !Hg.
Qed.

Lemma interaction_alike p1 p2 (recentGames recentGames' : list (Game PlayerId)) :
  Forall2 (λ game game', ∀ p, inGame game p = inGame game' p)
    recentGames recentGames' →
  getPlayerInteractionScore p1 p2 recentGames
  = getPlayerInteractionScore p1 p2 recentGames'.
Proof.
  intros Halike. unfold getPlayerInteractionScore, slice_last.
  rewrite <- (Forall2_length _ _ _ Halike).
  by apply forEachIdx_alike, Forall2_drop.
Qed.

Lemma queued_alike games (newQueue newQueue' : list (Match PlayerId)) :
  length newQueue = length newQueue' →
  Forall2 (λ game game', ∀ p, inGame game p = inGame game' p)
    (games ++ (Queued <$> newQueue)) (games ++ (Queued <$> newQueue')).
Proof.
  intros Hlen. apply Forall2_app.
  - induction games; by constructor.
  - revert newQueue' Hlen.
    induction newQueue as [|m newQueue IH]; intros [|m' newQueue'] Hlen;
      try done.
    cbn [fmap list_fmap]. constructor; [done|]. apply IH.
    cbn [length] in Hlen. lia.
Qed.

Lemma totalScoreOf_by_number qc cmin allGames queuedGames
  (newQueue newQueue' : list (Match PlayerId))
  (t1a t1b t2a t2b : Player PlayerId) :
  length newQueue = length newQueue' →
  totalScoreOf qc cmin allGames queuedGames newQueue t1a t1b t2a t2b
  = totalScoreOf qc cmin allGames queuedGames newQueue' t1a t1b t2a t2b.
Proof.
  intros Hlen. unfold totalScoreOf. cbn zeta.
  rewrite !(app_assoc allGames queuedGames).
  rewrite !teammateRepeatScore_ignores_queued,
    !opponentRepeatScore_ignores_queued.
  f_equal. unfold recentInteractionScore. cbn [foldl].
  pose proof (queued_alike (allGames ++ queuedGames) newQueue newQueue' Hlen)
    as Halike.
  by rewrite !(λ x y, interaction_alike x y _ _ Halike).
Qed.

(** X8. A round reads of the matches committed earlier in the same call
    only how many they are: two queues of the same length give every team
    split the same score, and the round the same choice. What the earlier
    rounds chose reaches a round through the counters alone. *)
Theorem committed_matches_only_by_number
  (availablePlayers : list (Player PlayerId)) allGames queuedGames
  (newQueue newQueue' : list (Match PlayerId)) qc :
  length newQueue = length newQueue' →
  (∀ cmin t1a t1b t2a t2b,
     totalScoreOf qc cmin allGames queuedGames newQueue t1a t1b t2a t2b
     = totalScoreOf qc cmin allGames queuedGames newQueue' t1a t1b t2a t2b) ∧
  findBestMatch availablePlayers allGames queuedGames newQueue qc
  = findBestMatch availablePlayers allGames queuedGames newQueue' qc.
Proof.
  intros Hlen. split.
  - intros. by apply totalScoreOf_by_number.
  - rewrite !findBestMatch_fold. f_equal. apply foldl_ext_in.
    intros best teams. unfold tryTeams.
    destruct (team1 teams) as [|t1a [|t1b [|]]]; try done.
    destruct (team2 teams) as [|t2a [|t2b [|]]]; try done.
    cbn zeta.
    by rewrite (totalScoreOf_by_number _ _ _ _ newQueue newQueue').
Qed.

(** *** Lifetime totals count by their differences *)

Lemma filter_min_more qc cmin extra (l : list (Player PlayerId)) :
  length (filter (hasMinCount qc cmin) (withMoreGames extra <$> l))
  = length (filter (hasMinCount qc cmin) l).
Proof.
  induction l as [|x l IH]; [done|].
  rewrite fmap_cons, !filter_cons.
  destruct (decide (hasMinCount qc cmin (withMoreGames extra x))) as [H1|H1],
    (decide (hasMinCount qc cmin x)) as [H2|H2];
    cbn [length]; try (by rewrite IH); by destruct H1 || by destruct H2.
Qed.

Lemma totalScoreOf_more qc cmin allGames queuedGames
  (newQueue : list (Match PlayerId)) extra (a b c d : Player PlayerId) :
  totalScoreOf qc cmin allGames queuedGames newQueue
    (withMoreGames extra a) (withMoreGames extra b)
    (withMoreGames extra c) (withMoreGames extra d)
  = totalScoreOf qc cmin allGames queuedGames newQueue a b c d + 400 * extra.
Proof.
  rewrite !totalScoreOf_split. unfold usageScore, historyScore.
  change [withMoreGames extra a; withMoreGames extra b;
          withMoreGames extra c; withMoreGames extra d]
    with (withMoreGames extra <$> [a; b; c; d]).
  rewrite filter_min_more.
  unfold teammateRepeatScore, opponentRepeatScore, recentInteractionScore,
    countOf.
  cbn [fmap list_fmap foldl total_games_played id withMoreGames]. lia.
Qed.

Lemma bind_fmap_ext {A B} (h : B → B) (g g' : A → list B) (l : list A) :
  (∀ x, g' x = h <$> g x) → l ≫= g' = h <$> (l ≫= g).
Proof.
  intros Hg. induction l as [|x l IH]; [done|].
  csimpl. by rewrite fmap_app, Hg, IH.
Qed.

Lemma candidates_more (availablePlayers : list (Player PlayerId)) qc extra :
  candidates (withMoreGames extra <$> availablePlayers) qc
  = matchWithMoreGames extra <$> candidates availablePlayers qc.
Proof.
  unfold candidates. cbn zeta. rewrite length_fmap.
  apply bind_fmap_ext. intros [[[i j] k] l]. unfold candidatesAt.
  rewrite !list_lookup_fmap.
  destruct (availablePlayers !! i) as [f0|]; [|done].
  destruct (availablePlayers !! j) as [f1|]; [|done].
  destruct (availablePlayers !! k) as [f2|]; [|done].
  destruct (availablePlayers !! l) as [f3|]; [|done].
  cbn [fmap option_fmap option_map].
  assert (Hskip :
    skipGroup qc (Math_min (Object_values qc))
      (filter (hasMinCount qc (Math_min (Object_values qc)))
         (withMoreGames extra <$> availablePlayers))
      [withMoreGames extra f0; withMoreGames extra f1;
       withMoreGames extra f2; withMoreGames extra f3]
    = skipGroup qc (Math_min (Object_values qc))
        (filter (hasMinCount qc (Math_min (Object_values qc)))
           availablePlayers) [f0; f1; f2; f3]).
  { unfold skipGroup. cbn zeta.
    change [withMoreGames extra f0; withMoreGames extra f1;
            withMoreGames extra f2; withMoreGames extra f3]
      with (withMoreGames extra <$> [f0; f1; f2; f3]).
    by rewrite !filter_min_more. }
  rewrite Hskip. clear Hskip. destruct (skipGroup _ _ _ _); reflexivity.
Qed.

Lemma tryTeams_more qc cmin allGames queuedGames
  (newQueue newQueue' : list (Match PlayerId)) extra
  (cands : list (Match PlayerId)) (best : Best) :
  length newQueue' = length newQueue →
  Forall wfTeams cands →
  foldl (tryTeams qc cmin allGames queuedGames newQueue')
    ((λ s, s + 400 * extra) <$> best.1, matchWithMoreGames extra <$> best.2)
    (matchWithMoreGames extra <$> cands)
  = let best' :=
      foldl (tryTeams qc cmin allGames queuedGames newQueue) best cands in
    ((λ s, s + 400 * extra) <$> best'.1, matchWithMoreGames extra <$> best'.2).
Proof.
  intros Hlen Hwf. revert best.
  induction Hwf as [|teams cands (a & b & c & d & ->) _ IH]; intros best;
    [done|].
  cbn [fmap list_fmap foldl]. cbn zeta in IH. rewrite <- IH. f_equal.
  unfold tryTeams.
  cbn [team1 team2 matchWithMoreGames fmap list_fmap fst snd].
  rewrite totalScoreOf_more,
    (totalScoreOf_by_number _ _ _ _ newQueue' newQueue) by done.
  destruct best as [[s|] m]; cbn [fst snd below fmap option_fmap option_map].
  - destruct (decide (totalScoreOf qc cmin allGames queuedGames newQueue
                        a b c d < s)) as [Hlt|Hge].
    + by rewrite !bool_decide_eq_true_2 by lia.
    + by rewrite !bool_decide_eq_false_2 by lia.
  - done.
Qed.

Lemma findBestMatch_more (availablePlayers : list (Player PlayerId))
  allGames queuedGames (newQueue : list (Match PlayerId)) qc extra :
  findBestMatch (withMoreGames extra <$> availablePlayers) allGames
    queuedGames (matchWithMoreGames extra <$> newQueue) qc
  = matchWithMoreGames extra
    <$> findBestMatch availablePlayers allGames queuedGames newQueue qc.
Proof.
  rewrite !findBestMatch_fold, candidates_more.
  pose proof (tryTeams_more qc (Math_min (Object_values qc)) allGames
                queuedGames newQueue (matchWithMoreGames extra <$> newQueue)
                extra (candidates availablePlayers qc) (None, None)
                (length_fmap _ _) (candidates_wf _ _)) as Hfold.
  cbn zeta in Hfold. cbn [fst snd fmap option_fmap option_map] in Hfold.
  by rewrite Hfold.
Qed.

Lemma bumpCounts_more qc extra (bestMatch : Match PlayerId) :
  bumpCounts qc (matchWithMoreGames extra bestMatch) = bumpCounts qc bestMatch.
Proof.
  unfold bumpCounts. cbn [team1 team2 matchWithMoreGames].
  rewrite <- fmap_app. generalize (team1 bestMatch ++ team2 bestMatch).
  intros l. revert qc. induction l as [|x l IH]; intros qc; [done|].
  cbn [fmap list_fmap foldl]. by rewrite <- IH.
Qed.

Lemma queueLoop_more rounds (availablePlayers : list (Player PlayerId))
  allGames queuedGames (newQueue : list (Match PlayerId)) qc extra :
  queueLoop rounds (withMoreGames extra <$> availablePlayers) allGames
    queuedGames (matchWithMoreGames extra <$> newQueue) qc
  = let run := queueLoop rounds availablePlayers allGames queuedGames
                 newQueue qc in
    (matchWithMoreGames extra <$> run.1, run.2).
Proof.
  revert newQueue qc. induction rounds as [|rounds IH]; intros newQueue qc;
    [done|].
  cbn [queueLoop]. rewrite findBestMatch_more.
  destruct (findBestMatch availablePlayers allGames queuedGames newQueue qc)
    as [bestMatch|]; cbn [fmap option_fmap option_map]; [|done].
  rewrite bumpCounts_more.
  change [matchWithMoreGames extra bestMatch]
    with (matchWithMoreGames extra <$> [bestMatch]).
  rewrite <- fmap_app. apply IH.
Qed.

Lemma initCounts_more (availablePlayers : list (Player PlayerId)) extra :
  initCounts (withMoreGames extra <$> availablePlayers)
  = initCounts availablePlayers.
Proof.
  unfold initCounts. generalize (∅ : gmap PlayerId Z).
  induction availablePlayers as [|x l IH]; intros qc; [done|].
  cbn [fmap list_fmap foldl]. by rewrite <- IH.
Qed.

(** X9. Only the differences between the lifetime totals of the players
    matter: giving every available player the same number of additional
    lifetime games adds the same amount to the score of every team split
    and leaves the answer as it is (the same players in the same teams and
    the same order) and the final counters too. *)
Theorem lifetime_totals_by_difference
  (availablePlayers : list (Player PlayerId)) allGames queuedGames extra :
  (∀ qc cmin newQueue a b c d,
     totalScoreOf qc cmin allGames queuedGames newQueue
       (withMoreGames extra a) (withMoreGames extra b)
       (withMoreGames extra c) (withMoreGames extra d)
     = totalScoreOf qc cmin allGames queuedGames newQueue a b c d
       + 400 * extra) ∧
  generateQueue (withMoreGames extra <$> availablePlayers) allGames queuedGames
  = matchWithMoreGames extra
    <$> generateQueue availablePlayers allGames queuedGames ∧
  (generateQueue_run (withMoreGames extra <$> availablePlayers)
     allGames queuedGames).2
  = (generateQueue_run availablePlayers allGames queuedGames).2.
Proof.
  split; [intros; apply totalScoreOf_more|].
  unfold generateQueue, generateQueue_run. rewrite length_fmap.
  case_bool_decide; [done|].
  rewrite initCounts_more.
  pose proof (queueLoop_more maxQueueGames availablePlayers allGames
                queuedGames [] (initCounts availablePlayers) extra) as Hrun.
  cbn zeta in Hrun. cbn [fmap list_fmap] in Hrun. by rewrite Hrun.
Qed.

(** *** The groups a round examines *)

Lemma quads_from_k (n i j k : nat) (q : nat * nat * nat * nat) :
  q ∈ (range (k + 1) n ≫= λ l, [(i, j, k, l)]) → ∃ l, q = (i, j, k, l).
Proof.
  intros (l & Hq%list_elem_of_singleton & _)%list_elem_of_bind. eauto.
Qed.

Lemma quads_from_j (n i j : nat) (q : nat * nat * nat * nat) :
  q ∈ (range (j + 1) (n - 1) ≫= λ k,
         range (k + 1) n ≫= λ l, [(i, j, k, l)]) →
  ∃ k l, q = (i, j, k, l).
Proof.
  intros (k & [l ->]%quads_from_k & _)%list_elem_of_bind. eauto.
Qed.

Lemma quads_from_i (n i : nat) (q : nat * nat * nat * nat) :
  q ∈ (range (i + 1) (n - 2) ≫= λ j,
         range (j + 1) (n - 1) ≫= λ k,
           range (k + 1) n ≫= λ l, [(i, j, k, l)]) →
  ∃ j k l, q = (i, j, k, l).
Proof.
  intros (j & (k & l & ->)%quads_from_j & _)%list_elem_of_bind. eauto.
Qed.

Lemma indexQuads_NoDup n : NoDup (indexQuads n).
Proof.
  unfold indexQuads.
  apply NoDup_bind; [| |apply NoDup_seq].
  { intros i i' q _ _ (j & k & l & ->)%quads_from_i
      (j' & k' & l' & Heq)%quads_from_i. congruence. }
  intros i _. apply NoDup_bind; [| |apply NoDup_seq].
  { intros j j' q _ _ (k & l & ->)%quads_from_j
      (k' & l' & Heq)%quads_from_j. congruence. }
  intros j _. apply NoDup_bind; [| |apply NoDup_seq].
  { intros k k' q _ _ (l & ->)%quads_from_k (l' & Heq)%quads_from_k.
    congruence. }
  intros k _. apply NoDup_bind; [| |apply NoDup_seq].
  { intros l l' q _ _ Hq%list_elem_of_singleton Hq'%list_elem_of_singleton.
    congruence. }
  intros l _. apply NoDup_singleton.
Qed.

Lemma length_bind_sum {A B} (f : A → list B) (l : list A) :
  Z.of_nat (length (l ≫= f)) = sumOver (λ x, Z.of_nat (length (f x))) l.
Proof.
  induction l as [|x l IH]; [done|].
  rewrite sumOver_cons, <- IH. csimpl. rewrite length_app. lia.
Qed.

Lemma sum_descending (f : nat → Z) (c : Z) (a m : nat) :
  Z.of_nat a + Z.of_nat m = c →
  (∀ x, x ∈ seq a m → f x = c - Z.of_nat x) →
  2 * sumOver f (seq a m) = Z.of_nat m * (Z.of_nat m + 1).
Proof.
  revert a. induction m as [|m IH]; intros a Hc Hf; [done|].
  cbn [seq]. rewrite sumOver_cons.
  rewrite (Hf a) by apply list_elem_of_here.
  specialize (IH (S a) ltac:(lia)
                (λ x Hx, Hf x (list_elem_of_further _ _ _ Hx))).
  nia.
Qed.

Lemma sum_triangles (f : nat → Z) (c : Z) (a m : nat) :
  Z.of_nat a + Z.of_nat m = c →
  (∀ x, x ∈ seq a m →
        2 * f x = (c - Z.of_nat x) * (c - Z.of_nat x + 1)) →
  6 * sumOver f (seq a m)
  = Z.of_nat m * (Z.of_nat m + 1) * (Z.of_nat m + 2).
Proof.
  revert a. induction m as [|m IH]; intros a Hc Hf; [done|].
  cbn [seq]. rewrite sumOver_cons.
  pose proof (Hf a (list_elem_of_here _ _)) as Ha.
  specialize (IH (S a) ltac:(lia)
                (λ x Hx, Hf x (list_elem_of_further _ _ _ Hx))).
  replace (c - Z.of_nat a) with (Z.of_nat m + 1) in Ha by lia.
  nia.
Qed.

Lemma sum_pyramids (f : nat → Z) (c : Z) (a m : nat) :
  Z.of_nat a + Z.of_nat m = c →
  (∀ x, x ∈ seq a m →
        6 * f x
        = (c - Z.of_nat x) * (c - Z.of_nat x + 1) * (c - Z.of_nat x + 2)) →
  24 * sumOver f (seq a m)
  = Z.of_nat m * (Z.of_nat m + 1) * (Z.of_nat m + 2) * (Z.of_nat m + 3).
Proof.
  revert a. induction m as [|m IH]; intros a Hc Hf; [done|].
  cbn [seq]. rewrite sumOver_cons.
  pose proof (Hf a (list_elem_of_here _ _)) as Ha.
  specialize (IH (S a) ltac:(lia)
                (λ x Hx, Hf x (list_elem_of_further _ _ _ Hx))).
  replace (c - Z.of_nat a) with (Z.of_nat m + 1) in Ha by lia.
  nia.
Qed.

Lemma indexQuads_length n :
  24 * Z.of_nat (length (indexQuads n))
  = Z.of_nat n * (Z.of_nat n - 1) * (Z.of_nat n - 2) * (Z.of_nat n - 3).
Proof.
  destruct (decide (n < 3)%nat) as [Hsmall|Hn].
  { unfold indexQuads, range.
    replace (n - 3 - 0)%nat with 0%nat by lia. cbn.
    destruct n as [|[|[|n]]]; lia. }
  unfold indexQuads, range. rewrite length_bind_sum.
  rewrite (sum_pyramids _ (Z.of_nat n - 3)); [nia|lia|].
  intros i [_ Hi]%elem_of_seq. rewrite length_bind_sum.
  rewrite (sum_triangles _ (Z.of_nat n - 2)); [nia|lia|].
  intros j [Hij Hj]%elem_of_seq. rewrite length_bind_sum.
  rewrite (sum_descending _ (Z.of_nat n - 1)); [nia|lia|].
  intros k [Hjk Hk]%elem_of_seq. rewrite length_bind_sum.
  rewrite (sumOver_ext_in _ (λ _, 1)) by done.
  assert (Hones : ∀ l : list nat, sumOver (λ _, 1) l = Z.of_nat (length l)).
  { induction l as [|x l IH]; [done|].
    rewrite sumOver_cons, IH. cbn [length]. lia. }
  rewrite Hones, length_seq. lia.
Qed.

Lemma length_bind_le {A B} (f : A → list B) (l : list A) (bound : nat) :
  (∀ x, length (f x) ≤ bound)%nat →
  (length (l ≫= f) ≤ bound * length l)%nat.
Proof.
  intros Hf. induction l as [|x l IH]; [cbn; lia|].
  csimpl. rewrite length_app. specialize (Hf x). lia.
Qed.

Lemma candidates_length (availablePlayers : list (Player PlayerId)) qc :
  Z.of_nat (length (candidates availablePlayers qc))
  ≤ 3 * Z.of_nat (length (indexQuads (length availablePlayers))).
Proof.
  unfold candidates. cbn zeta.
  pose proof (length_bind_le
    (candidatesAt availablePlayers qc (Math_min (Object_values qc))
       (filter (hasMinCount qc (Math_min (Object_values qc)))
          availablePlayers))
    (indexQuads (length availablePlayers)) 3) as Hle.
  assert (Hat : ∀ q, (length (candidatesAt availablePlayers qc
                    (Math_min (Object_values qc))
                    (filter (hasMinCount qc (Math_min (Object_values qc)))
                       availablePlayers) q) ≤ 3)%nat); [|specialize (Hle Hat); lia].
  intros [[[i j] k] l]. unfold candidatesAt.
  repeat (destruct (availablePlayers !! _); [|cbn; lia]).
  destruct (skipGroup _ _ _ _); cbn; lia.
Qed.

(** X10. The four loops of a round visit every increasing quadruple of
    positions of [availablePlayers], and each exactly once. For [n]
    available players that is [n (n-1) (n-2) (n-3) / 24] groups, and a round
    scores at most three team splits for each. *)
Theorem groups_visited_once (availablePlayers : list (Player PlayerId)) qc :
  let n := length availablePlayers in
  NoDup (indexQuads n) ∧
  (∀ i j k l,
     (i, j, k, l) ∈ indexQuads n ↔ (i < j ∧ j < k ∧ k < l ∧ l < n)%nat) ∧
  24 * Z.of_nat (length (indexQuads n))
  = Z.of_nat n * (Z.of_nat n - 1) * (Z.of_nat n - 2) * (Z.of_nat n - 3) ∧
  8 * Z.of_nat (length (candidates availablePlayers qc))
  ≤ Z.of_nat n * (Z.of_nat n - 1) * (Z.of_nat n - 2) * (Z.of_nat n - 3).
Proof.
  intros n. split; [apply indexQuads_NoDup|].
  split; [intros; apply indexQuads_elem|].
  pose proof (indexQuads_length n) as Hlen.
  pose proof (candidates_length availablePlayers qc) as Hcands.
  fold n in Hcands. split; [done|lia].
Qed.

(** *** The two lists of games *)

Lemma totalScoreOf_one_list qc cmin allGames queuedGames
  (newQueue : list (Match PlayerId)) (t1a t1b t2a t2b : Player PlayerId) :
  totalScoreOf qc cmin allGames queuedGames newQueue t1a t1b t2a t2b
  = totalScoreOf qc cmin (allGames ++ queuedGames) [] newQueue
      t1a t1b t2a t2b.
Proof.
  unfold totalScoreOf. cbn zeta. by rewrite app_nil_l, !app_assoc.
Qed.

Lemma findBestMatch_one_list (availablePlayers : list (Player PlayerId))
  allGames queuedGames newQueue qc :
  findBestMatch availablePlayers allGames queuedGames newQueue qc
  = findBestMatch availablePlayers (allGames ++ queuedGames) [] newQueue qc.
Proof.
  rewrite !findBestMatch_fold. f_equal. apply foldl_ext_in.
  intros best teams. unfold tryTeams.
  destruct (team1 teams) as [|t1a [|t1b [|]]]; try done.
  destruct (team2 teams) as [|t2a [|t2b [|]]]; try done.
  cbn zeta. by rewrite totalScoreOf_one_list.
Qed.

(** X11. [generateQueue] reads its two lists of games as one: only the
    games of [allGames] followed by those of [queuedGames] matter, not where
    the first list ends. The answer and the final counters are those for the
    concatenation and no queued games. *)
Theorem history_read_as_one_list (availablePlayers : list (Player PlayerId))
  allGames queuedGames :
  generateQueue_run availablePlayers allGames queuedGames
  = generateQueue_run availablePlayers (allGames ++ queuedGames) [].
Proof.
  unfold generateQueue_run. case_bool_decide; [done|].
  generalize (initCounts availablePlayers) ([] : list (Match PlayerId)).
  induction maxQueueGames as [|rounds IH]; intros qc newQueue; [done|].
  cbn [queueLoop]. rewrite findBestMatch_one_list.
  destruct (findBestMatch _ _ _ _ _); [apply IH|done].
Qed.

End MoreProperties.

(** ** Properties of the dashboard handlers *)

Section DashboardProperties.

Context {PlayerId : Type} {PlayerId_eq : EqDecision PlayerId}
  {PlayerId_countable : Countable PlayerId} {SessionId GameId : Type}.

(** *** handleGenerateQueue *)

(** The matches of the answer: two teams of two, four distinct ids, all of
    them available players. *)
Lemma generateQueue_shape (availablePlayers : list (Player PlayerId))
  allGames queuedGames :
  NoDup (id <$> availablePlayers) →
  Forall (λ bestMatch,
            wfTeams bestMatch ∧
            NoDup (id <$> team1 bestMatch ++ team2 bestMatch) ∧
            Forall (λ x, x ∈ availablePlayers)
              (team1 bestMatch ++ team2 bestMatch))
    (generateQueue availablePlayers allGames queuedGames).
Proof.
  intros Hnd. eapply Forall_impl; [apply generateQueue_groups|].
  intros bestMatch (f0 & f1 & f2 & f3 & Hgroup & Hteams).
  split; [by eapply possibleTeams_wf|].
  rewrite (possibleTeams_perm _ _ _ _ _ Hteams).
  split; [by eapply group_NoDup|by apply group_elems].
Qed.

Lemma distinct_ids_disjoint (a b c d : PlayerId) :
  NoDup [a; b; c; d] → teamsDisjoint (Row (Some a) (Some b) (Some c) (Some d)).
Proof.
  rewrite !NoDup_cons, !elem_of_cons, !elem_of_nil.
  intros Hnd. unfold teamsDisjoint, team1Ids, team2Ids, definedIds. cbn.
  repeat constructor;
    rewrite !elem_of_cons, elem_of_nil; intuition congruence.
Qed.

Lemma gamesToInsert_wf (session : SessionId) nextGameNumber idx
  (newMatches : list (Match PlayerId)) :
  Forall wfTeams newMatches →
  ∃ games,
    gamesToInsert session nextGameNumber idx newMatches = Some games ∧
    Forall2 (λ newMatch newGame,
               ∃ a b c d,
                 newMatch = mkMatch [a; b] [c; d] ∧
                 session_id newGame = session ∧
                 new_team1_player1_id newGame = id a ∧
                 new_team1_player2_id newGame = id b ∧
                 new_team2_player1_id newGame = id c ∧
                 new_team2_player2_id newGame = id d ∧
                 status newGame = "queued" ∧
                 is_custom newGame = false)
      newMatches games ∧
    ∀ i newGame, games !! i = Some newGame →
      game_number newGame = nextGameNumber + Z.of_nat (idx + i).
Proof.
  intros Hwf. revert idx.
  induction Hwf as [|newMatch rest (a & b & c & d & ->) _ IH]; intros idx.
  - exists []. split; [done|]. split; [constructor|].
    intros i newGame Hi. by rewrite lookup_nil in Hi.
  - destruct (IH (S idx)) as (games & Hgames & Hall & Hnum).
    cbn [gamesToInsert]. rewrite Hgames. cbn. eexists. split; [done|]. split.
    + constructor; [|done]. by exists a, b, c, d.
    + intros [|i] newGame Hi.
      * injection Hi as <-. cbn. f_equal. lia.
      * rewrite (Hnum i newGame Hi). f_equal. lia.
Qed.

Lemma active_distinct (sessionPlayers : list (SessionPlayer PlayerId)) :
  NoDup (idsOf sessionPlayers) →
  NoDup (id <$> (player <$> filter isActive sessionPlayers)).
Proof.
  unfold idsOf. intros Hnd. rewrite <- list_fmap_compose.
  eapply sublist_NoDup; [exact Hnd|].
  apply fmap_sublist, sublist_filter.
Qed.

(** X12. With a session in progress and at least four active session players
    of pairwise distinct ids, [handleGenerateQueue] always reaches the insert,
    and with exactly three rows: neither the alert for an empty answer nor a
    failure while the rows are built can occur. The rows are numbered
    consecutively after the games the session has, are marked queued and not
    custom, and each lists four pairwise distinct ids of active players,
    its two teams being disjoint. *)
Theorem handleGenerateQueue_inserts_three (session : SessionId)
  (sessionPlayers : list (SessionPlayer PlayerId))
  (completedGames currentGames queuedGames : list (Game PlayerId)) :
  let activePlayers := filter isActive sessionPlayers in
  let gamesSoFar :=
    Z.of_nat (length completedGames) + Z.of_nat (length currentGames)
    + Z.of_nat (length queuedGames) in
  (4 ≤ length activePlayers)%nat →
  NoDup (idsOf sessionPlayers) →
  ∃ g1 g2 g3,
    handleGenerateQueue (Some session) sessionPlayers
      completedGames currentGames queuedGames = Inserts (GameId := GameId) [g1; g2; g3] ∧
    game_number g1 = gamesSoFar + 1 ∧
    game_number g2 = gamesSoFar + 2 ∧
    game_number g3 = gamesSoFar + 3 ∧
    Forall (λ newGame,
              session_id newGame = session ∧
              status newGame = "queued" ∧
              is_custom newGame = false ∧
              NoDup [new_team1_player1_id newGame; new_team1_player2_id newGame;
                     new_team2_player1_id newGame; new_team2_player2_id newGame] ∧
              teamsDisjoint (asGame newGame) ∧
              Forall (λ playerId, playerId ∈ idsOf activePlayers)
                [new_team1_player1_id newGame; new_team1_player2_id newGame;
                 new_team2_player1_id newGame; new_team2_player2_id newGame])
      [g1; g2; g3].
Proof.
  intros activePlayers gamesSoFar Hn Hnd. unfold handleGenerateQueue.
  fold activePlayers. rewrite bool_decide_eq_false_2 by lia.
  set (newMatches := generateQueue (player <$> activePlayers)
                       (completedGames ++ currentGames) queuedGames).
  assert (Hlen : length newMatches = 3%nat).
  { apply generateQueue_length_3. by rewrite length_fmap. }
  rewrite bool_decide_eq_false_2 by lia.
  pose proof (generateQueue_shape (player <$> activePlayers)
                (completedGames ++ currentGames) queuedGames
                (active_distinct _ Hnd)) as Hshape.
  fold newMatches in Hshape.
  destruct (gamesToInsert_wf session (gamesSoFar + 1) 0 newMatches)
    as (games & Hgames & Hall & Hnum).
  { eapply Forall_impl; [exact Hshape|]. by intros m [Hwf _]. }
  fold gamesSoFar. rewrite Hgames.
  pose proof (Forall2_length _ _ _ Hall) as Hlen2. rewrite Hlen in Hlen2.
  destruct games as [|g1 [|g2 [|g3 [|g4 games]]]]; try done.
  exists g1, g2, g3. split; [done|].
  rewrite (Hnum 0%nat g1 eq_refl), (Hnum 1%nat g2 eq_refl),
    (Hnum 2%nat g3 eq_refl).
  split; [lia|]. split; [lia|]. split; [lia|].
  apply Forall_forall. intros newGame Hin.
  apply list_elem_of_lookup in Hin as [i Hi].
  destruct (Forall2_lookup_r _ _ _ _ _ Hall Hi)
    as (newMatch & Hm & a & b & c & d & -> & Hs & Ha & Hb & Hc & Hd & Hst & Hcu).
  apply list_elem_of_lookup_2 in Hm.
  rewrite Forall_forall in Hshape.
  destruct (Hshape _ Hm) as (_ & Hdistinct & Hmembers).
  cbn in Hdistinct, Hmembers.
  assert (Hids : NoDup [new_team1_player1_id newGame;
                        new_team1_player2_id newGame;
                        new_team2_player1_id newGame;
                        new_team2_player2_id newGame])
    by (by rewrite Ha, Hb, Hc, Hd).
  repeat split; try done.
  - destruct newGame. by apply distinct_ids_disjoint.
  - rewrite Ha, Hb, Hc, Hd.
    change [id a; id b; id c; id d] with (id <$> [a; b; c; d]).
    apply Forall_fmap. eapply Forall_impl; [exact Hmembers|].
    intros x Hx. cbn. apply list_elem_of_fmap in Hx as (y & -> & Hy).
    by apply (list_elem_of_fmap_2 (λ x, id (player x))).
Qed.

(** *** The custom-match and edit-game dialogs *)

Lemma someWithId_spec (playerId : PlayerId)
  (team : list (SessionPlayer PlayerId)) :
  someWithId playerId team = true ↔ playerId ∈ idsOf team.
Proof.
  unfold someWithId, idsOf. induction team as [|x team IH]; cbn.
  - split; [done|]. intros Hin. by apply elem_of_nil in Hin.
  - rewrite orb_true_iff, bool_decide_eq_true, IH, elem_of_cons.
    intuition congruence.
Qed.

Lemma findById_Some (playerId : PlayerId)
  (sessionPlayers : list (SessionPlayer PlayerId)) found :
  findById playerId sessionPlayers = Some found →
  id (player found) = playerId ∧ found ∈ sessionPlayers.
Proof.
  unfold findById. intros [Hin Hid]%find_some.
  apply bool_decide_eq_true in Hid. by apply list_elem_of_In in Hin.
Qed.

Lemma findById_is_Some (playerId : PlayerId)
  (sessionPlayers : list (SessionPlayer PlayerId)) :
  playerId ∈ idsOf sessionPlayers →
  ∃ found, findById playerId sessionPlayers = Some found.
Proof.
  unfold idsOf. intros (x & Hid & Hin)%list_elem_of_fmap.
  destruct (findById playerId sessionPlayers) as [found|] eqn:Hfind; [eauto|].
  unfold findById in Hfind. apply list_elem_of_In in Hin.
  pose proof (find_none _ _ Hfind x Hin) as Hno. cbn in Hno.
  by rewrite bool_decide_eq_true_2 in Hno.
Qed.

Lemma findById_None (playerId : PlayerId)
  (sessionPlayers : list (SessionPlayer PlayerId)) :
  playerId ∉ idsOf sessionPlayers →
  findById playerId sessionPlayers = None.
Proof.
  intros Hout.
  destruct (findById playerId sessionPlayers) as [found|] eqn:Hfind; [|done].
  apply findById_Some in Hfind as [<- Hin]. destruct Hout.
  by apply (list_elem_of_fmap_2 (λ x, id (player x))).
Qed.

Lemma withoutId_sublist (playerId : PlayerId)
  (team : list (SessionPlayer PlayerId)) :
  idsOf (withoutId playerId team) `sublist_of` idsOf team.
Proof. apply fmap_sublist, sublist_filter. Qed.

Lemma withoutId_gone (playerId : PlayerId)
  (team : list (SessionPlayer PlayerId)) :
  playerId ∉ idsOf (withoutId playerId team).
Proof.
  unfold idsOf, withoutId.
  intros (x & Hid & Hin)%list_elem_of_fmap.
  apply list_elem_of_filter in Hin as [Hne _]. by destruct Hne.
Qed.

(** The invariant of a dialog together with where its players come from. *)
Lemma toggle_keeps (sessionPlayers : list (SessionPlayer PlayerId))
  (playerId : PlayerId) (team : Z) (teams : Teams PlayerId) :
  TeamsOk teams ∧ Forall (λ x, x ∈ sessionPlayers) (teams.1 ++ teams.2) →
  let teams' := togglePlayerInCustomTeam sessionPlayers playerId team teams in
  TeamsOk teams' ∧ Forall (λ x, x ∈ sessionPlayers) (teams'.1 ++ teams'.2).
Proof.
  destruct teams as [t1 t2]. unfold TeamsOk. cbn [fst snd].
  intros [(Hl1 & Hl2 & Hnd) Hmem]. apply Forall_app in Hmem as [Hm1 Hm2].
  cbn zeta. unfold togglePlayerInCustomTeam.
  assert (Hrm1 : (length (withoutId playerId t1) ≤ 2)%nat).
  { unfold withoutId. pose proof (length_filter (λ x, id (player x) ≠ playerId) t1). lia. }
  assert (Hrm2 : (length (withoutId playerId t2) ≤ 2)%nat).
  { unfold withoutId. pose proof (length_filter (λ x, id (player x) ≠ playerId) t2). lia. }
  assert (Hf1 : Forall (λ x, x ∈ sessionPlayers) (withoutId playerId t1)).
  { rewrite Forall_forall in Hm1. apply Forall_forall.
    intros x [_ Hx]%list_elem_of_filter. by apply Hm1. }
  assert (Hf2 : Forall (λ x, x ∈ sessionPlayers) (withoutId playerId t2)).
  { rewrite Forall_forall in Hm2. apply Forall_forall.
    intros x [_ Hx]%list_elem_of_filter. by apply Hm2. }
  case_bool_decide as Hteam.
  - destruct (someWithId playerId t1) eqn:Hin1; cbn [fst snd].
    { split; [split; [done|split; [done|]]|by apply Forall_app].
      eapply sublist_NoDup; [exact Hnd|].
      by apply sublist_app; [apply withoutId_sublist|]. }
    destruct (bool_decide (length t1 < 2)%nat) eqn:Hlen;
      [|cbn; by rewrite Forall_app].
    destruct (someWithId playerId t2) eqn:Hin2;
      [cbn; by rewrite Forall_app|].
    cbn [negb andb].
    destruct (findById playerId sessionPlayers) as [found|] eqn:Hfind;
      [|cbn; by rewrite Forall_app].
    apply findById_Some in Hfind as [Hid Hfound].
    apply bool_decide_eq_true in Hlen.
    apply not_true_iff_false in Hin1, Hin2.
    rewrite someWithId_spec in Hin1, Hin2.
    cbn [fst snd]. split; [split; [|split; [done|]]|].
    + rewrite length_app. cbn [length]. lia.
    + unfold idsOf in *. rewrite fmap_app. cbn [fmap list_fmap].
      rewrite Hid, <- app_assoc. cbn [app].
      apply NoDup_app in Hnd as (Hn1 & Hdis & Hn2).
      apply NoDup_app. split; [done|]. split.
      * intros y Hy [->|Hy2]%elem_of_cons; [done|]. by apply (Hdis y).
      * by apply NoDup_cons.
    + rewrite Forall_app. split; [|done].
      rewrite Forall_app. split; [done|]. by repeat constructor.
  - destruct (someWithId playerId t2) eqn:Hin2; cbn [fst snd].
    { split; [split; [done|split; [done|]]|by apply Forall_app].
      eapply sublist_NoDup; [exact Hnd|].
      by apply sublist_app; [|apply withoutId_sublist]. }
    destruct (bool_decide (length t2 < 2)%nat) eqn:Hlen;
      [|cbn; by rewrite Forall_app].
    destruct (someWithId playerId t1) eqn:Hin1;
      [cbn; by rewrite Forall_app|].
    cbn [negb andb].
    destruct (findById playerId sessionPlayers) as [found|] eqn:Hfind;
      [|cbn; by rewrite Forall_app].
    apply findById_Some in Hfind as [Hid Hfound].
    apply bool_decide_eq_true in Hlen.
    apply not_true_iff_false in Hin1, Hin2.
    rewrite someWithId_spec in Hin1, Hin2.
    cbn [fst snd]. split; [split; [done|split]|].
    + rewrite length_app. cbn [length]. lia.
    + unfold idsOf in *. rewrite fmap_app. cbn [fmap list_fmap].
      rewrite Hid.
      apply NoDup_app in Hnd as (Hn1 & Hdis & Hn2).
      apply NoDup_app. split; [done|]. split.
      * intros y Hy [Hy2|Hy2%list_elem_of_singleton]%elem_of_app;
          [by apply (Hdis y)|by subst y].
      * apply NoDup_app. split; [done|]. split; [|apply NoDup_singleton].
        intros y Hy Hy2%list_elem_of_singleton. by subst y.
    + rewrite Forall_app. split; [done|].
      rewrite Forall_app. split; [done|]. by repeat constructor.
Qed.

Lemma foldl_invariant {A B} (P : A → Prop) (f : A → B → A) (l : list B) a :
  P a → (∀ a b, P a → P (f a b)) → P (foldl f a l).
Proof.
  intros Ha Hstep. revert a Ha.
  induction l as [|b l IH]; intros a Ha; [done|].
  cbn [foldl]. by apply IH, Hstep.
Qed.

Lemma customTeamsAfter_ok (sessionPlayers : list (SessionPlayer PlayerId))
  (clicks : list (Click PlayerId)) :
  let teams := customTeamsAfter sessionPlayers clicks in
  TeamsOk teams ∧ Forall (λ x, x ∈ sessionPlayers) (teams.1 ++ teams.2).
Proof.
  unfold customTeamsAfter.
  apply (foldl_invariant (λ teams : Teams PlayerId,
           TeamsOk teams ∧
           Forall (λ x, x ∈ sessionPlayers) (teams.1 ++ teams.2))).
  - unfold TeamsOk. cbn. repeat split; try lia; constructor.
  - intros teams [playerId team] Hok. by apply toggle_keeps.
Qed.

(** Two full teams that satisfy the invariant. *)
Lemma full_teams (sessionPlayers : list (SessionPlayer PlayerId))
  (teams : Teams PlayerId) :
  TeamsOk teams → Forall (λ x, x ∈ sessionPlayers) (teams.1 ++ teams.2) →
  length teams.1 = 2%nat → length teams.2 = 2%nat →
  ∃ a b c d,
    teams = ([a; b], [c; d]) ∧
    NoDup [id (player a); id (player b); id (player c); id (player d)] ∧
    Forall (λ playerId, playerId ∈ idsOf sessionPlayers)
      [id (player a); id (player b); id (player c); id (player d)].
Proof.
  destruct teams as [t1 t2]. unfold TeamsOk. cbn [fst snd].
  intros (_ & _ & Hnd) Hmem Hl1 Hl2.
  destruct t1 as [|a [|b [|]]]; try done.
  destruct t2 as [|c [|d [|]]]; try done.
  exists a, b, c, d. split; [done|]. split; [done|].
  change [id (player a); id (player b); id (player c); id (player d)]
    with ((λ x, id (player x)) <$> [a; b; c; d]).
  apply Forall_fmap. eapply Forall_impl; [exact Hmem|].
  intros x Hx. by apply (list_elem_of_fmap_2 (λ x, id (player x))).
Qed.

(** X13. Whatever series of clicks the custom-match dialog receives from the
    empty teams it opens with, its two teams hold at most two players each,
    no player twice, and only session players. Hence [insertCustomMatch]
    either asks for two players per team, or fails for want of a session,
    or inserts one row, custom and queued, numbered after the games of the
    session, that lists four pairwise distinct ids of session players with
    disjoint teams. *)
Theorem custom_match_four_distinct (currentSession : option SessionId)
  (sessionPlayers : list (SessionPlayer PlayerId))
  (clicks : list (Click PlayerId))
  (completedGames currentGames queuedGames : list (Game PlayerId)) :
  let customTeams := customTeamsAfter sessionPlayers clicks in
  TeamsOk customTeams ∧
  Forall (λ x, x ∈ sessionPlayers) (customTeams.1 ++ customTeams.2) ∧
  match insertCustomMatch (GameId := GameId) currentSession customTeams
          completedGames currentGames queuedGames with
  | Inserts games =>
      ∃ newGame,
        games = [newGame] ∧
        currentSession = Some (session_id newGame) ∧
        game_number newGame
        = Z.of_nat (length completedGames) + Z.of_nat (length currentGames)
          + Z.of_nat (length queuedGames) + 1 ∧
        status newGame = "queued" ∧
        is_custom newGame = true ∧
        NoDup [new_team1_player1_id newGame; new_team1_player2_id newGame;
               new_team2_player1_id newGame; new_team2_player2_id newGame] ∧
        teamsDisjoint (asGame newGame) ∧
        Forall (λ playerId, playerId ∈ idsOf sessionPlayers)
          [new_team1_player1_id newGame; new_team1_player2_id newGame;
           new_team2_player1_id newGame; new_team2_player2_id newGame]
  | Alerts message =>
      (message = "Please select 2 players for each team" ∧
       (length customTeams.1 ≠ 2%nat ∨ length customTeams.2 ≠ 2%nat)) ∨
      (message = "Failed to insert custom match" ∧ currentSession = None)
  | _ => False
  end.
Proof.
  intros customTeams.
  destruct (customTeamsAfter_ok sessionPlayers clicks) as [Hok Hmem].
  fold customTeams in Hok, Hmem. split; [done|]. split; [done|].
  unfold insertCustomMatch.
  destruct customTeams as [t1 t2] eqn:Hteams. cbn [fst snd] in *.
  destruct (decide (length t1 = 2%nat)) as [Hl1|Hl1];
    [|rewrite (bool_decide_eq_true_2 (length t1 ≠ 2%nat)) by done;
      cbn; tauto].
  destruct (decide (length t2 = 2%nat)) as [Hl2|Hl2];
    [|rewrite (bool_decide_eq_true_2 (length t2 ≠ 2%nat)) by done;
      rewrite orb_true_r; cbn; tauto].
  rewrite !bool_decide_eq_false_2 by (intros Hne; by apply Hne). cbn [orb].
  destruct (full_teams sessionPlayers (t1, t2) Hok Hmem Hl1 Hl2)
    as (a & b & c & d & [= -> ->] & Hnd & Hids).
  destruct currentSession as [session|]; cbn; [|tauto].
  eexists. split; [done|]. cbn. repeat split; try done.
  by apply distinct_ids_disjoint.
Qed.

Lemma found_ids (sessionPlayers : list (SessionPlayer PlayerId))
  (f1 f2 : option PlayerId) :
  idsOf (filter_Boolean [findByField f1 sessionPlayers;
                         findByField f2 sessionPlayers])
  `sublist_of` definedIds [f1; f2] ∧
  Forall (λ x, x ∈ sessionPlayers)
    (filter_Boolean [findByField f1 sessionPlayers;
                     findByField f2 sessionPlayers]).
Proof.
  unfold filter_Boolean, findByField, definedIds, idsOf.
  destruct f1 as [a|], f2 as [b|]; cbn;
    repeat match goal with
    | |- context [findById ?x sessionPlayers] =>
        let Hfind := fresh "Hfind" in
        destruct (findById x sessionPlayers) eqn:Hfind;
        [apply findById_Some in Hfind as [<- ?]|]
    end; cbn; split; repeat constructor; done.
Qed.

Lemma handleEditGame_ok (sessionPlayers : list (SessionPlayer PlayerId))
  (game : Game PlayerId) :
  NoDup (team1Ids game ++ team2Ids game) →
  let teams := handleEditGame sessionPlayers game in
  TeamsOk teams ∧ Forall (λ x, x ∈ sessionPlayers) (teams.1 ++ teams.2).
Proof.
  intros Hnd. cbn zeta. unfold handleEditGame, TeamsOk. cbn [fst snd].
  destruct (found_ids sessionPlayers (team1_player1_id game)
              (team1_player2_id game)) as [Hs1 Hm1].
  destruct (found_ids sessionPlayers (team2_player1_id game)
              (team2_player2_id game)) as [Hs2 Hm2].
  fold (team1Ids game) in Hs1. fold (team2Ids game) in Hs2.
  assert (Hlen : ∀ f1 f2 : option PlayerId,
            (length (definedIds [f1; f2]) ≤ 2)%nat).
  { intros [|] [|]; cbn; lia. }
  split; [split; [|split]|by apply Forall_app].
  - apply sublist_length in Hs1. unfold idsOf in Hs1.
    rewrite length_fmap in Hs1.
    specialize (Hlen (team1_player1_id game) (team1_player2_id game)).
    unfold team1Ids in Hs1. lia.
  - apply sublist_length in Hs2. unfold idsOf in Hs2.
    rewrite length_fmap in Hs2.
    specialize (Hlen (team2_player1_id game) (team2_player2_id game)).
    unfold team2Ids in Hs2. lia.
  - eapply sublist_NoDup; [exact Hnd|]. by apply sublist_app.
Qed.

Lemma editTeamsAfter_ok (sessionPlayers : list (SessionPlayer PlayerId))
  (game : Game PlayerId) (clicks : list (Click PlayerId)) :
  NoDup (team1Ids game ++ team2Ids game) →
  let teams := editTeamsAfter sessionPlayers game clicks in
  TeamsOk teams ∧ Forall (λ x, x ∈ sessionPlayers) (teams.1 ++ teams.2).
Proof.
  intros Hnd. unfold editTeamsAfter.
  apply (foldl_invariant (λ teams : Teams PlayerId,
           TeamsOk teams ∧
           Forall (λ x, x ∈ sessionPlayers) (teams.1 ++ teams.2))).
  - by apply handleEditGame_ok.
  - intros teams [playerId team] Hok.
    change (togglePlayerInEditTeam sessionPlayers playerId team teams)
      with (togglePlayerInCustomTeam sessionPlayers playerId team teams).
    by apply toggle_keeps.
Qed.

(** X14. When the game opened in the edit dialog lists no id twice, then
    after any series of clicks the two teams of the dialog hold at most two
    players each and no player twice, and [saveEditedGame] either alerts or
    updates the game being edited with four pairwise distinct ids of session
    players, its two teams disjoint. *)
Theorem edited_game_four_distinct (editingGame : option GameId)
  (sessionPlayers : list (SessionPlayer PlayerId)) (game : Game PlayerId)
  (clicks : list (Click PlayerId)) :
  NoDup (team1Ids game ++ team2Ids game) →
  let editTeams := editTeamsAfter sessionPlayers game clicks in
  TeamsOk editTeams ∧
  match saveEditedGame (SessionId := SessionId) editingGame editTeams with
  | Updates gameId a b c d =>
      editingGame = Some gameId ∧
      NoDup [a; b; c; d] ∧
      teamsDisjoint (Row (Some a) (Some b) (Some c) (Some d)) ∧
      Forall (λ playerId, playerId ∈ idsOf sessionPlayers) [a; b; c; d]
  | Alerts message =>
      (message = "Please select 2 players for each team" ∧
       (length editTeams.1 ≠ 2%nat ∨ length editTeams.2 ≠ 2%nat)) ∨
      (message = "Failed to update game" ∧ editingGame = None)
  | _ => False
  end.
Proof.
  intros Hnd editTeams.
  destruct (editTeamsAfter_ok sessionPlayers game clicks Hnd) as [Hok Hmem].
  fold editTeams in Hok, Hmem. split; [done|].
  unfold saveEditedGame.
  destruct editTeams as [t1 t2] eqn:Hteams. cbn [fst snd] in *.
  destruct (decide (length t1 = 2%nat)) as [Hl1|Hl1];
    [|rewrite (bool_decide_eq_true_2 (length t1 ≠ 2%nat)) by done;
      cbn; tauto].
  destruct (decide (length t2 = 2%nat)) as [Hl2|Hl2];
    [|rewrite (bool_decide_eq_true_2 (length t2 ≠ 2%nat)) by done;
      rewrite orb_true_r; cbn; tauto].
  rewrite !bool_decide_eq_false_2 by (intros Hne; by apply Hne). cbn [orb].
  destruct (full_teams sessionPlayers (t1, t2) Hok Hmem Hl1 Hl2)
    as (a & b & c & d & [= -> ->] & Hids & Hin).
  destruct editingGame as [gameId|]; cbn; [|tauto].
  repeat split; try done. by apply distinct_ids_disjoint.
Qed.

(** X15. Opening a game in the edit dialog and saving it without a click
    writes back the four ids it had when all four belong to session players,
    in whatever way they are arranged; when one of them belongs to none, the
    dialog holds fewer than four players and the save is refused. *)
Theorem edit_round_trip (gameId : GameId)
  (sessionPlayers : list (SessionPlayer PlayerId)) (a b c d : PlayerId) :
  saveEditedGame (SessionId := SessionId) (Some gameId)
    (handleEditGame sessionPlayers (Row (Some a) (Some b) (Some c) (Some d)))
  = if decide (Forall (λ playerId, playerId ∈ idsOf sessionPlayers)
                 [a; b; c; d])
    then Updates gameId a b c d
    else Alerts "Please select 2 players for each team".
Proof.
  unfold handleEditGame, findByField, filter_Boolean, saveEditedGame.
  destruct (decide (Forall (λ playerId, playerId ∈ idsOf sessionPlayers)
                      [a; b; c; d])) as [Hall|Hnot].
  - rewrite !Forall_cons in Hall. destruct Hall as (Ha & Hb & Hc & Hd & _).
    destruct (findById_is_Some a sessionPlayers Ha) as [fa Hfa].
    destruct (findById_is_Some b sessionPlayers Hb) as [fb Hfb].
    destruct (findById_is_Some c sessionPlayers Hc) as [fc Hfc].
    destruct (findById_is_Some d sessionPlayers Hd) as [fd Hfd].
    cbn. rewrite Hfa, Hfb, Hfc, Hfd. cbn.
    apply findById_Some in Hfa as [Hfa _], Hfb as [Hfb _],
      Hfc as [Hfc _], Hfd as [Hfd _].
    by rewrite Hfa, Hfb, Hfc, Hfd.
  - assert (Hin : ∀ x found, findById x sessionPlayers = Some found →
                    x ∈ idsOf sessionPlayers).
    { intros x found [<- Hfound]%findById_Some.
      by apply (list_elem_of_fmap_2 (λ x, id (player x))). }
    cbn.
    destruct (findById a sessionPlayers) as [fa|] eqn:Hfa;
    destruct (findById b sessionPlayers) as [fb|] eqn:Hfb;
    destruct (findById c sessionPlayers) as [fc|] eqn:Hfc;
    destruct (findById d sessionPlayers) as [fd|] eqn:Hfd; cbn; try done.
    destruct Hnot. repeat constructor; by eapply Hin.
Qed.

(** *** Games per player *)

Lemma ids_of_game (game : Game PlayerId) :
  getPlayerIdsFromGame game = team1Ids game ++ team2Ids game.
Proof.
  unfold getPlayerIdsFromGame, team1Ids, team2Ids, definedIds.
  by destruct (team1_player1_id game), (team1_player2_id game).
Qed.

Lemma listed_appears (playerId : PlayerId) (game : Game PlayerId) :
  strictEq (team1_player1_id game) playerId
  || strictEq (team1_player2_id game) playerId
  || strictEq (team2_player1_id game) playerId
  || strictEq (team2_player2_id game) playerId = true
  ↔ appearsIn playerId game.
Proof.
  unfold appearsIn. rewrite elem_of_app, <- inTeam1_spec, <- inTeam2_spec.
  unfold inTeam1, inTeam2. rewrite !orb_true_iff. tauto.
Qed.

Lemma session_games_count
  (completedGames currentGames queuedGames : list (Game PlayerId))
  (playerId : PlayerId) :
  getPlayerSessionGames completedGames currentGames queuedGames playerId
  = countIf (appearsIn playerId)
      (completedGames ++ currentGames ++ queuedGames).
Proof.
  unfold getPlayerSessionGames. cbn zeta.
  generalize (completedGames ++ currentGames ++ queuedGames). intros games.
  induction games as [|game games IH]; [done|].
  rewrite countIf_cons, <- IH, filter_cons.
  pose proof (listed_appears playerId game) as Hiff.
  destruct (decide (appearsIn playerId game)) as [Hin|Hout].
  - rewrite decide_True by tauto. cbn [length]. lia.
  - rewrite decide_False by tauto. lia.
Qed.

Lemma count_ids (ids : list PlayerId) (playerGames : gmap PlayerId Z)
  (key : PlayerId) :
  let playerGames' :=
    foldl (λ playerGames playerId,
             <[playerId := default 0 (playerGames !! playerId) + 1]>
               playerGames) playerGames ids in
  default 0 (playerGames' !! key)
  = default 0 (playerGames !! key) + countIf (λ playerId, playerId = key) ids ∧
  (playerGames' !! key = None ↔ playerGames !! key = None ∧ key ∉ ids).
Proof.
  cbn zeta. revert playerGames.
  induction ids as [|playerId ids IH]; intros playerGames.
  - cbn [foldl]. unfold countIf. cbn. split; [lia|].
    split; [|tauto]. intros Hnone. split; [done|]. apply not_elem_of_nil.
  - cbn [foldl]. destruct (IH (<[playerId :=
      default 0 (playerGames !! playerId) + 1]> playerGames)) as [IH1 IH2].
    rewrite IH1, IH2, countIf_cons, not_elem_of_cons.
    destruct (decide (playerId = key)) as [->|Hne].
    + rewrite lookup_insert_eq. cbn. split; [lia|].
      split; [by intros [? _]|by intros (_ & ? & _)].
    + rewrite lookup_insert_ne by done. split; [lia|].
      split; [intros [? ?]|intros (? & ? & ?)]; repeat split; congruence.
Qed.

Lemma count_games (games : list (Game PlayerId))
  (playerGames : gmap PlayerId Z) (key : PlayerId) :
  let playerGames' :=
    foldl (λ playerGames game,
             let playerIds := getPlayerIdsFromGame game in
             foldl (λ playerGames playerId,
                      <[playerId := default 0 (playerGames !! playerId) + 1]>
                        playerGames)
               playerGames playerIds) playerGames games in
  default 0 (playerGames' !! key)
  = default 0 (playerGames !! key)
    + sumOver (λ game, countIf (λ playerId, playerId = key)
                         (getPlayerIdsFromGame game)) games ∧
  (playerGames' !! key = None ↔
   playerGames !! key = None ∧ Forall (λ game, ¬ appearsIn key game) games).
Proof.
  cbn zeta. revert playerGames.
  induction games as [|game games IH]; intros playerGames.
  - cbn [foldl sumOver foldr]. split; [lia|].
    split; [|tauto]. intros Hnone. split; [done|]. constructor.
  - cbn [foldl]. cbn zeta.
    destruct (count_ids (getPlayerIdsFromGame game) playerGames key)
      as [Hc1 Hc2]. cbn zeta in Hc1, Hc2.
    destruct (IH (foldl (λ playerGames playerId,
                <[playerId := default 0 (playerGames !! playerId) + 1]>
                  playerGames) playerGames (getPlayerIdsFromGame game)))
      as [IH1 IH2].
    rewrite IH1, IH2, Hc1, Hc2, sumOver_cons, Forall_cons.
    assert (Hiff : key ∉ getPlayerIdsFromGame game ↔ ¬ appearsIn key game)
      by (unfold appearsIn; by rewrite ids_of_game).
    split; [lia|tauto].
Qed.

Lemma listed_at_least_once (ids : list PlayerId) (key : PlayerId) :
  key ∈ ids → 1 ≤ countIf (λ listed, listed = key) ids.
Proof.
  induction ids as [|listed ids IH]; intros Hin.
  - by apply elem_of_nil in Hin.
  - rewrite countIf_cons.
    pose proof (countIf_bounds (λ listed, listed = key) ids).
    destruct (decide (listed = key)); [lia|].
    apply elem_of_cons in Hin as [->|Hin]; [done|].
    specialize (IH Hin). lia.
Qed.

Lemma listed_once (ids : list PlayerId) (key : PlayerId) :
  NoDup ids →
  countIf (λ listed, listed = key) ids = if decide (key ∈ ids) then 1 else 0.
Proof.
  induction 1 as [|listed ids Hfresh _ IH].
  - rewrite decide_False; [done|]. apply not_elem_of_nil.
  - rewrite countIf_cons, IH.
    destruct (decide (listed = key)) as [->|Hne].
    + rewrite (decide_False (P := key ∈ ids)) by done.
      by rewrite decide_True by apply list_elem_of_here.
    + destruct (decide (key ∈ ids)) as [Hin|Hout].
      * by rewrite decide_True by (by apply list_elem_of_further).
      * rewrite decide_False; [done|].
        intros [?|?]%elem_of_cons; done.
Qed.

Lemma game_counts_distinct (games : list (Game PlayerId))
  (playerId : PlayerId) :
  Forall (λ game, NoDup (getPlayerIdsFromGame game)) games →
  default 0 (getPlayerGameCounts games !! playerId)
  = countIf (appearsIn playerId) games.
Proof.
  intros Hnd. unfold getPlayerGameCounts.
  destruct (count_games games ∅ playerId) as [Hsum _].
  cbn zeta in Hsum. rewrite Hsum, lookup_empty. cbn [default].
  rewrite Z.add_0_l. clear Hsum.
  induction Hnd as [|game games Hgame _ IH]; [done|].
  rewrite countIf_cons, sumOver_cons, IH, listed_once by done. f_equal.
  assert (Hiff : playerId ∈ getPlayerIdsFromGame game
                 ↔ appearsIn playerId game)
    by (unfold appearsIn; by rewrite ids_of_game).
  destruct (decide (playerId ∈ getPlayerIdsFromGame game)),
    (decide (appearsIn playerId game)); tauto || done.
Qed.

(** X16. [getPlayerGameCounts] holds, for every player, the number of id
    columns of [games] that hold the player: the player has an entry exactly
    when some game lists them, an entry is at least 1, and when no game
    lists an id twice the entry is the number of games the player is in,
    the number [getPlayerSessionGames] shows on the page. *)
Theorem game_counts_are_columns (games : list (Game PlayerId))
  (playerId : PlayerId) :
  let playerGames := getPlayerGameCounts games in
  default 0 (playerGames !! playerId)
  = sumOver (λ game, countIf (λ listed, listed = playerId)
                       (getPlayerIdsFromGame game)) games ∧
  (playerGames !! playerId = None ↔
   Forall (λ game, ¬ appearsIn playerId game) games) ∧
  (∀ gamesPlayed, playerGames !! playerId = Some gamesPlayed →
                  1 ≤ gamesPlayed) ∧
  getPlayerSessionGames games [] [] playerId
  ≤ default 0 (playerGames !! playerId) ∧
  (Forall (λ game, NoDup (getPlayerIdsFromGame game)) games →
   default 0 (playerGames !! playerId)
   = getPlayerSessionGames games [] [] playerId).
Proof.
  cbn zeta. unfold getPlayerGameCounts.
  destruct (count_games games ∅ playerId) as [Hsum Hnone].
  cbn zeta in Hsum, Hnone. rewrite lookup_empty in Hsum, Hnone.
  cbn [default] in Hsum. rewrite Z.add_0_l in Hsum.
  rewrite session_games_count, !app_nil_r.
  assert (Hle : ∀ game,
            (if decide (appearsIn playerId game) then 1 else 0)
            ≤ countIf (λ listed, listed = playerId)
                (getPlayerIdsFromGame game)).
  { intros game.
    destruct (decide (appearsIn playerId game)) as [Hin|Hout];
      [|apply countIf_bounds].
    unfold appearsIn in Hin. rewrite <- ids_of_game in Hin.
    by apply listed_at_least_once. }
  assert (Hge : countIf (appearsIn playerId) games
                ≤ sumOver (λ game, countIf (λ listed, listed = playerId)
                                     (getPlayerIdsFromGame game)) games).
  { clear -Hle. induction games as [|game games IH]; [done|].
    rewrite countIf_cons, sumOver_cons. specialize (Hle game).
    destruct (decide (appearsIn playerId game)); lia. }
  split; [done|]. split; [tauto|]. split; [|split; [lia|]].
  - intros gamesPlayed Hsome. rewrite Hsome in Hsum.
    change (default 0 (Some gamesPlayed)) with gamesPlayed in Hsum.
    assert (Hin : ¬ Forall (λ game, ¬ appearsIn playerId game) games).
    { intros Hall. destruct Hnone as [_ Hnone].
      rewrite Hnone in Hsome by done. congruence. }
    assert (Hpos : 1 ≤ countIf (appearsIn playerId) games); [|lia].
    clear -Hin. induction games as [|game games IH].
    + destruct Hin. constructor.
    + rewrite countIf_cons.
      pose proof (countIf_bounds (appearsIn playerId) games).
      destruct (decide (appearsIn playerId game)); [lia|].
      rewrite Z.add_0_l. apply IH. intros Hall. apply Hin. by constructor.
  - intros Hnd.
    pose proof (game_counts_distinct games playerId Hnd) as Hcount.
    by unfold getPlayerGameCounts in Hcount.
Qed.

(** *** The counters of the algorithm and the rows of the table *)

Lemma rows_of_matches (session : SessionId)
  (newMatches : list (Match PlayerId))
  (games : list (NewGame PlayerId SessionId)) (key : PlayerId) :
  Forall2 (λ newMatch newGame,
             ∃ a b c d,
               newMatch = mkMatch [a; b] [c; d] ∧
               session_id newGame = session ∧
               new_team1_player1_id newGame = id a ∧
               new_team1_player2_id newGame = id b ∧
               new_team2_player1_id newGame = id c ∧
               new_team2_player2_id newGame = id d ∧
               status newGame = "queued" ∧
               is_custom newGame = false)
    newMatches games →
  countIf (λ bestMatch, key ∈ id <$> team1 bestMatch ++ team2 bestMatch)
    newMatches
  = countIf (appearsIn key) (asGame <$> games) ∧
  (Forall (λ bestMatch, NoDup (id <$> team1 bestMatch ++ team2 bestMatch))
     newMatches →
   Forall (λ game, NoDup (getPlayerIdsFromGame game)) (asGame <$> games)).
Proof.
  induction 1 as [|newMatch newGame newMatches games
                   (a & b & c & d & -> & _ & Ha & Hb & Hc & Hd & _) _ [IH1 IH2]].
  - split; [done|]. constructor.
  - rewrite fmap_cons, !countIf_cons, IH1.
    assert (Hids : getPlayerIdsFromGame (asGame newGame)
                   = id <$> [a; b; c; d]).
    { unfold asGame. cbn. by rewrite Ha, Hb, Hc, Hd. }
    assert (Hiff : key ∈ id <$> [a; b; c; d] ↔ appearsIn key (asGame newGame)).
    { unfold appearsIn. by rewrite <- ids_of_game, Hids. }
    cbn [team1 team2 app]. split.
    + destruct (decide (key ∈ id <$> [a; b; c; d])),
        (decide (appearsIn key (asGame newGame))); tauto || done.
    + intros [Hm Hrest]%Forall_cons. constructor; [|by apply IH2].
      by rewrite Hids.
Qed.

(** X17. The counters [generateQueue] keeps are the games the page will
    show: when [handleGenerateQueue] inserts its rows for session players of
    pairwise distinct ids, the final counter of a player is the number of
    inserted rows that list the player, the entry [getPlayerGameCounts] gives
    the player over these rows, and the amount by which the player's
    [getPlayerSessionGames] grows once the rows join the queued games. *)
Theorem inserted_rows_match_counters (session : SessionId)
  (sessionPlayers : list (SessionPlayer PlayerId))
  (completedGames currentGames queuedGames : list (Game PlayerId))
  (games : list (NewGame PlayerId SessionId)) (x : Player PlayerId) :
  NoDup (idsOf sessionPlayers) →
  handleGenerateQueue (Some session) sessionPlayers
    completedGames currentGames queuedGames
  = Inserts (GameId := GameId) games →
  let queueCount :=
    (generateQueue_run (player <$> filter isActive sessionPlayers)
       (completedGames ++ currentGames) queuedGames).2 in
  countOf queueCount x = countIf (appearsIn (id x)) (asGame <$> games) ∧
  default 0 (getPlayerGameCounts (asGame <$> games) !! id x)
  = countOf queueCount x ∧
  getPlayerSessionGames completedGames currentGames
    (queuedGames ++ (asGame <$> games)) (id x)
  = getPlayerSessionGames completedGames currentGames queuedGames (id x)
    + countOf queueCount x.
Proof.
  intros Hnd Hins queueCount. subst queueCount.
  unfold handleGenerateQueue in Hins.
  set (activePlayers := filter isActive sessionPlayers) in *.
  case_bool_decide as Hn; [done|].
  set (newMatches := generateQueue (player <$> activePlayers)
                       (completedGames ++ currentGames) queuedGames) in *.
  case_bool_decide as Hempty; [done|].
  pose proof (generateQueue_shape (player <$> activePlayers)
                (completedGames ++ currentGames) queuedGames
                (active_distinct _ Hnd)) as Hshape.
  fold newMatches in Hshape.
  destruct (gamesToInsert_wf session
              (Z.of_nat (length completedGames)
               + Z.of_nat (length currentGames)
               + Z.of_nat (length queuedGames) + 1) 0 newMatches)
    as (games' & Hgames & Hall & _).
  { eapply Forall_impl; [exact Hshape|]. by intros m [Hwf _]. }
  rewrite Hgames in Hins. injection Hins as ->.
  assert (Hdistinct : Forall (λ bestMatch,
            NoDup (id <$> team1 bestMatch ++ team2 bestMatch)) newMatches).
  { eapply Forall_impl; [exact Hshape|]. by intros m (_ & Hm & _). }
  destruct (rows_of_matches session newMatches games (id x) Hall)
    as [Hrows Hrowsnd].
  assert (Hcount : countOf
            (generateQueue_run (player <$> activePlayers)
               (completedGames ++ currentGames) queuedGames).2 x
          = countIf (appearsIn (id x)) (asGame <$> games)).
  { rewrite <- Hrows, <- appearances_distinct by done.
    apply reachable_counts with (allGames := completedGames ++ currentGames)
      (queuedGames := queuedGames) (availablePlayers := player <$> activePlayers).
    apply generateQueue_run_reachable. rewrite length_fmap. lia. }
  split; [done|]. split.
  - rewrite Hcount. apply game_counts_distinct. by apply Hrowsnd.
  - rewrite !session_games_count, Hcount, !app_assoc, countIf_app. lia.
Qed.

End DashboardProperties.

(** ** The properties at concrete inputs *)



(** C2, at [games11] and [games21]: the most recent game is taken at
    distance 2 (it adds 18, not 20), and at distance 12 (it adds -2). *)
Theorem interaction_score_long_history :
  getPlayerInteractionScore 1 2 games11 = 18 ∧
  interactionScore_spec 1 2 games11 = 20 ∧
  getPlayerInteractionScore 1 2 games21 = -2 ∧
  interactionScore_spec 1 2 games21 = 20.
Proof.
  repeat split; vm_compute; reflexivity.
Qed.

(** C3, at [players4]: the pair placed as teammates in round 1 is scored
    in round 2 with a teammate-repeat penalty of 0, the opponent-repeat
    penalty is 0 as well, and all three rounds select the same split. *)
Theorem committed_match_not_penalised :
  findBestMatch players4 [] [] [] (initCounts players4) = Some match12_34 ∧
  teammateRepeatScore (mkPlayer 1 0) (mkPlayer 2 0) (mkPlayer 3 0)
    (mkPlayer 4 0) ([] ++ [] ++ (Queued <$> [match12_34])) = 0 ∧
  opponentRepeatScore [mkPlayer 1 0; mkPlayer 2 0]
    [mkPlayer 3 0; mkPlayer 4 0] ([] ++ [] ++ (Queued <$> [match12_34])) = 0 ∧
  generateQueue players4 [] [] = [match12_34; match12_34; match12_34].
Proof.
  repeat split; vm_compute; reflexivity.
Qed.





(** C6, at [games4]. *)
Lemma pairing_history_counts_witness :
  (1 : Z) ≠ 2 ∧
  Forall teamsDisjoint games4 ∧
  teammates (getPlayerPairingHistory 1 2 games4)
    = countIf (onSameTeam 1 2) games4 ∧
  opponents (getPlayerPairingHistory 1 2 games4)
    = countIf (onOppositeTeams 1 2) games4 ∧
  countIf (onSameTeam 1 2) games4 = 1 ∧
  countIf (onOppositeTeams 1 2) games4 = 1.
Proof.
  assert (Hne : (1 : Z) ≠ 2) by lia.
  assert (Hwf : Forall teamsDisjoint games4)
    by by_evaluation.
  destruct (pairing_history_counts 1 2 games4 Hne) as (Ht & _ & Ho & _).
  split; [exact Hne|]. split; [exact Hwf|]. split; [exact Ht|].
  split; [exact (Ho Hwf)|]. split; vm_compute; reflexivity.
Defined.

(** C7, at [games4]: player 1 appears in three of the four games. *)
Lemma pairing_with_self_not_zero :
  teammates (getPlayerPairingHistory 1 1 games4) = 3 ∧
  teammates (getPlayerPairingHistory 1 1 games4) ≠ 0.
Proof.
  assert (Ht : teammates (getPlayerPairingHistory 1 1 games4) = 3)
    by (vm_compute; reflexivity).
  split; [exact Ht|]. rewrite Ht. lia.
Qed.

(** C8, at [players3] and [players5]. *)
Lemma generateQueue_bounded_witness :
  (length players3 < 4)%nat ∧
  generateQueue players3 games4 [] = [] ∧
  (length (generateQueue players5 games4 []) ≤ 3)%nat.
Proof.
  assert (Hn : (length players3 < 4)%nat) by (vm_compute; lia).
  split; [exact Hn|]. split.
  - exact (proj1 (proj2 (generateQueue_bounded players3 games4 [])) Hn).
  - exact (proj1 (generateQueue_bounded players5 games4 [])).
Defined.

(** C9, at [players5] with the history [games4]. *)
Lemma generateQueue_distinct_witness :
  NoDup (id <$> players5) ∧
  Forall (λ bestMatch,
            length (team1 bestMatch) = 2%nat ∧
            length (team2 bestMatch) = 2%nat ∧
            NoDup (id <$> team1 bestMatch ++ team2 bestMatch) ∧
            ∀ x, x ∈ id <$> team1 bestMatch → x ∉ id <$> team2 bestMatch)
    (generateQueue players5 games4 []).
Proof.
  assert (Hnd : NoDup (id <$> players5))
    by by_evaluation.
  split; [exact Hnd|].
  exact (generateQueue_distinct players5 games4 [] Hnd).
Defined.


(** X1, at [players5] after [games4], for player 1. *)
Lemma counters_count_slots_witness :
  NoDup (id <$> players5) ∧
  countOf (generateQueue_run players5 games4 []).2 (mkPlayer 1 12)
  = countIf (λ bestMatch : Match Z,
               id (mkPlayer 1 12)
               ∈ id <$> team1 bestMatch ++ team2 bestMatch)
      (generateQueue players5 games4 []).
Proof.
  assert (Hnd : NoDup (id <$> players5)) by by_evaluation.
  split; [exact Hnd|].
  exact (proj2 (counters_count_slots players5 games4 [] (mkPlayer 1 12)) Hnd).
Defined.



(** X12, for session 7, [sessionPlayers6] and the completed games [games4]. *)
Lemma handleGenerateQueue_inserts_three_witness :
  (4 ≤ length (filter isActive sessionPlayers6))%nat ∧
  NoDup (idsOf sessionPlayers6) ∧
  ∃ g1 g2 g3 : NewGame Z Z,
    handleGenerateQueue (GameId := Z) (Some 7) sessionPlayers6 games4 [] []
    = Inserts [g1; g2; g3] ∧
    game_number g1 = 4 + 0 + 0 + 1 ∧
    game_number g2 = 4 + 0 + 0 + 2 ∧
    game_number g3 = 4 + 0 + 0 + 3.
Proof.
  assert (Hn : (4 ≤ length (filter isActive sessionPlayers6))%nat)
    by by_evaluation.
  assert (Hnd : NoDup (idsOf sessionPlayers6)) by by_evaluation.
  split; [exact Hn|]. split; [exact Hnd|].
  destruct (handleGenerateQueue_inserts_three (GameId := Z) 7 sessionPlayers6
              games4 [] [] Hn Hnd)
    as (g1 & g2 & g3 & Hins & H1 & H2 & H3 & _).
  exists g1, g2, g3. split; [exact Hins|].
  split; [exact H1|]. split; [exact H2|exact H3].
Defined.

(** X14, for the game 1,2 against 3,4 and the clicks [clicks_swap]. *)
Lemma edited_game_four_distinct_witness :
  NoDup (team1Ids (row 1 2 3 4) ++ team2Ids (row 1 2 3 4)) ∧
  TeamsOk (editTeamsAfter sessionPlayers6 (row 1 2 3 4) clicks_swap).
Proof.
  assert (Hnd : NoDup (team1Ids (row 1 2 3 4) ++ team2Ids (row 1 2 3 4)))
    by by_evaluation.
  split; [exact Hnd|].
  exact (proj1 (edited_game_four_distinct (SessionId := Z) (Some 9)
                  sessionPlayers6 (row 1 2 3 4) clicks_swap Hnd)).
Defined.

(** X8, at the first round state of [players5] after [games4], for two
    different committed matches. *)
Lemma committed_matches_only_by_number_witness :
  length [match12_34] = length [match14_25] ∧
  findBestMatch players5 games4 [] [match12_34] (initCounts players5)
  = findBestMatch players5 games4 [] [match14_25] (initCounts players5).
Proof.
  assert (Hlen : length [match12_34] = length [match14_25]) by reflexivity.
  split; [exact Hlen|].
  exact (proj2 (committed_matches_only_by_number players5 games4 []
                  [match12_34] [match14_25] (initCounts players5) Hlen)).
Defined.

(** X16, at [games4] for player 1. *)
Lemma game_counts_are_columns_witness :
  Forall (λ game, NoDup (getPlayerIdsFromGame game)) games4 ∧
  default 0 (getPlayerGameCounts games4 !! 1)
  = getPlayerSessionGames games4 [] [] 1.
Proof.
  assert (Hnd : Forall (λ game : Game Z, NoDup (getPlayerIdsFromGame game))
                  games4) by by_evaluation.
  split; [exact Hnd|].
  exact (proj2 (proj2 (proj2 (proj2 (game_counts_are_columns games4 1)))) Hnd).
Defined.

(** X17, for session 7, [sessionPlayers6], the completed games [games4]
    and player 4. *)
Lemma inserted_rows_match_counters_witness :
  NoDup (idsOf sessionPlayers6) ∧
  handleGenerateQueue (GameId := Z) (Some 7) sessionPlayers6 games4 [] []
  = Inserts inserted6 ∧
  countOf (generateQueue_run (player <$> filter isActive sessionPlayers6)
             (games4 ++ []) []).2 (mkPlayer 4 0)
  = countIf (appearsIn (id (mkPlayer 4 0))) (asGame <$> inserted6).
Proof.
  assert (Hnd : NoDup (idsOf sessionPlayers6)) by by_evaluation.
  assert (Hins : handleGenerateQueue (GameId := Z) (Some 7) sessionPlayers6
                   games4 [] [] = Inserts inserted6)
    by (vm_compute; reflexivity).
  split; [exact Hnd|]. split; [exact Hins|].
  exact (proj1 (inserted_rows_match_counters (GameId := Z) 7 sessionPlayers6
                  games4 [] [] inserted6 (mkPlayer 4 0) Hnd Hins)).
Defined.
